(** * Relation extraction over dependency graphs

    A shallow embedding of [RelationExtractor] (relation.py): the verb
    extractor [_extract_by_subj_obj], the prepositional extractor
    [_extract_by_nmod], the possessive rewriter [_replace_by_of] and the
    per-sentence pipeline of [extract], together with the properties that
    the specification states about them.

    Token positions are Python integers, hence [Z]; dictionaries that are
    only looked up are [gmap]s, the one dictionary that is iterated keeps
    its insertion order in an association list, Python sets are [gset]s and
    an [IndexError] is the [None] of the option monad. *)

From Stdlib Require Import ZArith String Ascii List Lia.
From stdpp Require Import base option list gmap sets strings.

Open Scope string_scope.
Open Scope list_scope.
Open Scope Z_scope.

(** ** Data model *)

(** A token of the parser: surface word and part-of-speech tag. *)
Record Token := { word : string; pos : string }.

(** A labelled dependency edge, with 1-based token positions. *)
Record Edge := { source : Z; target : Z; dep : string }.

(** A parsed sentence: [sentence.token] and
    [sentence.enhancedPlusPlusDependencies.edge]. *)
Record Sentence := { token : list Token; edges : list Edge }.

(** The tuple [(subject, (predicate, ...), object)]. *)
Abbreviation Relation := (Z * list Z * Z)%type.

Definition rel_subj (r : Relation) : Z := r.1.1.
Definition rel_pred (r : Relation) : list Z := r.1.2.
Definition rel_obj (r : Relation) : Z := r.2.

(** ** Python primitives *)

(** [l[i]] on a Python sequence: negative positions count from the end,
    anything outside [-len .. len-1] raises [IndexError]. *)
Definition py_index {A} (l : list A) (i : Z) : option A :=
  let n := Z.of_nat (length l) in
  if decide (0 <= i < n) then l !! Z.to_nat i
  else if decide (- n <= i < 0) then l !! Z.to_nat (n + i)
  else None.

(** [s.startswith(p)] *)
Fixpoint startswith (p s : string) : bool :=
  match p, s with
  | EmptyString, _ => true
  | String a p', String b s' => if decide (a = b) then startswith p' s' else false
  | String _ _, EmptyString => false
  end.

(** [s[n:]] *)
Fixpoint str_drop (n : nat) (s : string) : string :=
  match n, s with
  | O, _ => s
  | S n', String _ s' => str_drop n' s'
  | S _, EmptyString => EmptyString
  end.

(** [sep.join(ws)] *)
Definition join (sep : string) (ws : list string) : string := String.concat sep ws.

(** [set.add] applied to every element of [l] in turn. *)
Definition set_add_all (X : gset Relation) (l : list Relation) : gset Relation :=
  foldl (fun acc r => {[ r ]} ∪ acc) X l.

(** ** The verb extractor: [_extract_by_subj_obj] *)

(** The two lists kept per predicate in [pred2insts]. *)
Record Insts := { subjs : list Z; objs : list Z }.

(** The role an edge gives to its non-predicate end: the branch of the
    [if]/[elif] chain that sets [subj] or the one that sets [obj]. *)
Inductive Role := Subj (subj : Z) | Obj (obj : Z).

(** The [if edge.dep == ...] chain; [None] is the [continue] branch. *)
Definition classify (e : Edge) : option (Z * Role) :=
  if decide (dep e = "nsubj") then Some (source e, Subj (target e))
  else if decide (dep e = "acl") then Some (target e, Subj (source e))
  else if decide (dep e = "dobj") then Some (source e, Obj (target e))
  else if decide (dep e = "acl:relcl") then Some (target e, Obj (source e))
  else None.

Definition add_role (r : Role) (i : Insts) : Insts :=
  match r with
  | Subj x => {| subjs := subjs i ++ [x]; objs := objs i |}
  | Obj x => {| subjs := subjs i; objs := objs i ++ [x] |}
  end.

(** [pred2insts] is iterated at the end, so it is an association list in
    insertion order.  A missing key is first bound to two empty lists, at
    the end of the dictionary; then the entry is updated in place. *)
Fixpoint pred2insts_add (pred : Z) (r : Role) (d : list (Z * Insts)) : list (Z * Insts) :=
  match d with
  | [] => [(pred, add_role r {| subjs := []; objs := [] |})]
  | (k, i) :: d' =>
      if decide (k = pred) then (k, add_role r i) :: d'
      else (k, i) :: pred2insts_add pred r d'
  end.

Definition pred2insts_step (d : list (Z * Insts)) (e : Edge) : list (Z * Insts) :=
  match classify e with
  | None => d
  | Some (pred, r) => pred2insts_add pred r d
  end.

Definition build_pred2insts (es : list Edge) : list (Z * Insts) :=
  foldl pred2insts_step [] es.

(** The triples of one predicate: subjects outside, objects inside. *)
Definition pred_relations (pi : Z * Insts) : list Relation :=
  subj ← subjs pi.2; obj ← objs pi.2; [(subj - 1, [pi.1 - 1], obj - 1)].

Definition _extract_by_subj_obj (s : Sentence) : list Relation :=
  build_pred2insts (edges s) ≫= pred_relations.

(** *** The specification's view of the verb extractor *)

(** Subject candidates of predicate [p]: targets of [nsubj] edges out of
    [p] and sources of [acl] edges into [p]. *)
Definition subject_of (p : Z) (e : Edge) : list Z :=
  if decide (dep e = "nsubj" ∧ source e = p) then [target e]
  else if decide (dep e = "acl" ∧ target e = p) then [source e]
  else [].

Definition subject_candidates (es : list Edge) (p : Z) : list Z :=
  es ≫= subject_of p.

(** Object candidates of predicate [p]: targets of [dobj] edges out of [p]
    and sources of [acl:relcl] edges into [p]. *)
Definition object_of (p : Z) (e : Edge) : list Z :=
  if decide (dep e = "dobj" ∧ source e = p) then [target e]
  else if decide (dep e = "acl:relcl" ∧ target e = p) then [source e]
  else [].

Definition object_candidates (es : list Edge) (p : Z) : list Z :=
  es ≫= object_of p.

(** ** The prepositional extractor: [_extract_by_nmod] *)

(** The labels indexed in [dep_idx]. *)
Definition dep_labels : list string := ["case"; "mwe"; "acl"; "nsubj"; "conj:and"].

(** [{dep: {} for dep in [...]}] *)
Definition dep_idx_init : gmap string (gmap Z (list Z)) :=
  list_to_map ((fun d => (d, ∅)) <$> dep_labels).

(** One round of the indexing loop: an edge whose label is not a key is
    passed over; an [acl] edge is entered with its ends swapped. *)
Definition dep_idx_step (dep_idx : gmap string (gmap Z (list Z))) (e : Edge)
  : gmap string (gmap Z (list Z)) :=
  match dep_idx !! dep e with
  | None => dep_idx
  | Some by_source =>
      let '(src, tgt) :=
        if decide (dep e = "acl") then (target e, source e) else (source e, target e) in
      <[dep e := <[src := default [] (by_source !! src) ++ [tgt]]> by_source]> dep_idx
  end.

Definition build_dep_idx (es : list Edge) : gmap string (gmap Z (list Z)) :=
  foldl dep_idx_step dep_idx_init es.

(** [dep_idx[d].get(k)]: [Some] exactly when [k in dep_idx[d]]. *)
Definition idx_get (dep_idx : gmap string (gmap Z (list Z))) (d : string) (k : Z)
  : option (list Z) :=
  (dep_idx !!! d) !! k.

Definition exclude : list string := ["of"; "for"].

(** The body of the [for case in dep_idx['case'][edge.target]] loop up to
    the comparison: the candidate predicate positions and their word. *)
Definition case_word (dep_idx : gmap string (gmap Z (list Z))) (tokens : list Token)
    (case : Z) : option (list Z * string) :=
  t ← py_index tokens (case - 1);
  match idx_get dep_idx "mwe" case with
  | None => Some ([case], word t)
  | Some more =>
      let word_idc := case :: more in
      ws ← mapM (fun idx => word <$> py_index tokens (idx - 1)) word_idc;
      Some (word_idc, join "_" ws)
  end.

(** The search for the preposition: the first case token whose word is
    [nmod]; [Some None] when the loop ends with [pred] still [None]. *)
Fixpoint find_pred (dep_idx : gmap string (gmap Z (list Z))) (tokens : list Token)
    (nmod : string) (cases : list Z) : option (option (list Z)) :=
  match cases with
  | [] => Some None
  | case :: cases' =>
      cw ← case_word dep_idx tokens case;
      if decide (cw.2 = nmod) then Some (Some cw.1)
      else find_pred dep_idx tokens nmod cases'
  end.

(** The [for dep in ['acl', 'nsubj']] loop with its [break]: the first
    label under which the source is indexed decides; the source is put in
    front of the predicate when it stands right before [pred[0]] (the
    predicate starts with a case token, so it has a first position). *)
Fixpoint verb_phrase_relations (dep_idx : gmap string (gmap Z (list Z))) (e : Edge)
    (pred : list Z) (deps : list string) : list Relation :=
  match deps with
  | [] => []
  | d :: deps' =>
      match idx_get dep_idx d (source e) with
      | Some sources =>
          let pred' :=
            if decide (head pred = Some (source e + 1)) then source e :: pred else pred in
          (fun src => (src, pred', target e)) <$> sources
      | None => verb_phrase_relations dep_idx e pred deps'
      end
  end.

(** The body of the main loop for one edge: the relations it appends. *)
Definition nmod_edge (dep_idx : gmap string (gmap Z (list Z))) (tokens : list Token)
    (e : Edge) : option (list Relation) :=
  if negb (startswith "nmod:" (dep e)) then Some [] else
  let nmod := str_drop 5 (dep e) in
  if decide (nmod ∈ exclude) then Some [] else
  tt ← py_index tokens (target e - 1);
  if negb (startswith "NN" (pos tt)) then Some [] else
  match idx_get dep_idx "case" (target e) with
  | None => Some []
  | Some cases =>
      found ← find_pred dep_idx tokens nmod cases;
      match found with
      | None => Some []
      | Some pred =>
          st ← py_index tokens (source e - 1);
          if startswith "NN" (pos st) then Some [(source e, pred, target e)]
          else Some (verb_phrase_relations dep_idx e pred ["acl"; "nsubj"])
      end
  end.

(** The relations before expansion, 1-based. *)
Definition nmod_relations (s : Sentence) : option (list Relation) :=
  mjoin <$> mapM (nmod_edge (build_dep_idx (edges s)) (token s)) (edges s).

(** [equal_insts[typ]]: the instance, then whatever [conj:and] joins to it. *)
Definition equal_insts (dep_idx : gmap string (gmap Z (list Z))) (inst : Z) : list Z :=
  inst :: default [] (idx_get dep_idx "conj:and" inst).

(** The tuples added to [expanded_relations] for one relation. *)
Definition expand_relation (dep_idx : gmap string (gmap Z (list Z))) (r : Relation)
  : list Relation :=
  let '(subj, pred, obj) := r in
  let pred' := (fun idx => idx - 1) <$> pred in
  subj' ← equal_insts dep_idx subj; obj' ← equal_insts dep_idx obj;
  [(subj' - 1, pred', obj' - 1)].

Definition expand_relations (dep_idx : gmap string (gmap Z (list Z)))
    (relations : list Relation) : gset Relation :=
  set_add_all ∅ (relations ≫= expand_relation dep_idx).

Definition _extract_by_nmod (s : Sentence) : option (list Relation) :=
  relations ← nmod_relations s;
  Some (elements (expand_relations (build_dep_idx (edges s)) relations)).

(** ** The possessive rewriter: [_replace_by_of] *)

Definition of_idx_step (of_idx : gmap Z (list Z)) (e : Edge) : gmap Z (list Z) :=
  if decide (dep e = "nmod:of")
  then <[source e - 1 := default [] (of_idx !! (source e - 1)) ++ [target e - 1]]> of_idx
  else of_idx.

Definition build_of_idx (es : list Edge) : gmap Z (list Z) :=
  foldl of_idx_step ∅ es.

(** [real_insts[typ]] after the inner loop. *)
Definition real_insts (of_idx : gmap Z (list Z)) (inst : Z) : list Z :=
  match of_idx !! inst with
  | Some insts => insts
  | None => [inst]
  end.

(** The tuples added to [relpaced_relations] for one relation. *)
Definition replace_relation (of_idx : gmap Z (list Z)) (r : Relation) : list Relation :=
  let '(subj, pred, obj) := r in
  subj' ← real_insts of_idx subj; obj' ← real_insts of_idx obj; [(subj', pred, obj')].

Definition replaced_relations (s : Sentence) (relations : list Relation) : gset Relation :=
  set_add_all ∅ (relations ≫= replace_relation (build_of_idx (edges s))).

Definition _replace_by_of (s : Sentence) (relations : list Relation) : list Relation :=
  elements (replaced_relations s relations).

(** ** The pipeline: [extract], one sentence at a time *)

Record SentenceResult := { res_tokens : list string; res_relations : list Relation }.

Definition extract_sentence (s : Sentence) : option SentenceResult :=
  by_nmod ← _extract_by_nmod s;
  let relations := _extract_by_subj_obj s ++ by_nmod in
  Some {| res_tokens := word <$> token s;
          res_relations := _replace_by_of s relations |}.

Definition extract (ann : list Sentence) : option (list SentenceResult) :=
  mapM extract_sentence ann.

(** The words at the positions of a predicate: [[tokens[idx] for idx in pred]]. *)
Definition pred_words (tokens : list string) (pred : list Z) : option (list string) :=
  mapM (py_index tokens) pred.

(** The words a relation's predicate stands for, as the command line
    prints them: ['-'.join([tokens[idx] for idx in relation[1]])]. *)
Definition resolve_pred (tokens : list string) (pred : list Z) : option string :=
  join "-" <$> pred_words tokens pred.

(** *** The specification's view of the indices *)

(** The end of an edge that keys the index, and the end that is listed. *)
Definition governor (d : string) (e : Edge) : Z :=
  if decide (d = "acl") then target e else source e.
Definition dependent (d : string) (e : Edge) : Z :=
  if decide (d = "acl") then source e else target e.

(** The tokens listed under [k] for label [d], in edge order. *)
Definition dependents (es : list Edge) (d : string) (k : Z) : list Z :=
  dependent d <$> filter (fun e => dep e = d ∧ governor d e = k) es.

(** The 0-based [nmod:of] dependents of the 0-based position [k]. *)
Definition of_dependents (es : list Edge) (k : Z) : list Z :=
  (fun e => target e - 1) <$> filter (fun e => dep e = "nmod:of" ∧ source e - 1 = k) es.

(** The tokens coordinated with [k]: targets of [conj:and] edges out of [k]. *)
Definition conj_and (es : list Edge) (k : Z) : list Z :=
  target <$> filter (fun e => dep e = "conj:and" ∧ source e = k) es.

(** [k] is a key of the 0-based [nmod:of] index. *)
Definition of_governor (es : list Edge) (k : Z) : Prop :=
  ∃ e, e ∈ es ∧ dep e = "nmod:of" ∧ source e - 1 = k.

(** [k'] may stand for the endpoint [k]: one of its [nmod:of] dependents
    when it has any, the endpoint itself otherwise. *)
Definition substitute_of (es : list Edge) (k k' : Z) : Prop :=
  (of_governor es k ∧ k' ∈ of_dependents es k) ∨ (¬ of_governor es k ∧ k' = k).

(** A dictionary entry exists only once something was appended to it. *)
Definition entry (l : list Z) : option (list Z) :=
  match l with
  | [] => None
  | _ => Some l
  end.

(** The subjects of a verb-like source [k]: its [acl] entry, else its
    [nsubj] entry. *)
Definition governing_subjects (es : list Edge) (k : Z) : list Z :=
  match dependents es "acl" k with
  | [] => dependents es "nsubj" k
  | l => l
  end.

(** What [pred2insts] holds after the first loop: one entry per
    predicate with a candidate, listing exactly its candidates. *)
Definition pred2insts_inv (es : list Edge) (d : list (Z * Insts)) : Prop :=
  NoDup d.*1 ∧
  (∀ p i, (p, i) ∈ d →
     subjs i = subject_candidates es p ∧ objs i = object_candidates es p) ∧
  (∀ p, subject_candidates es p ≠ [] ∨ object_candidates es p ≠ [] → p ∈ d.*1).

(** A 1-based position of one of the sentence's [n] tokens. *)
Definition in_sentence (s : Sentence) (i : Z) : Prop :=
  1 <= i <= Z.of_nat (length (token s)).

(** Every edge joins two of the sentence's tokens. *)
Definition wf_sentence (s : Sentence) : Prop :=
  Forall (fun e => in_sentence s (source e) ∧ in_sentence s (target e)) (edges s).

(** A valid 0-based position in a token list. *)
Definition in_output {A} (tokens : list A) (i : Z) : Prop :=
  0 <= i < Z.of_nat (length tokens).

(** A relation all of whose positions are valid 0-based positions. *)
Definition relation_in_output {A} (tokens : list A) (r : Relation) : Prop :=
  in_output tokens (rel_subj r) ∧ Forall (in_output tokens) (rel_pred r) ∧
  in_output tokens (rel_obj r).

(** The sentence without the edge at the split. *)
Definition without_edge (s : Sentence) (es1 es2 : list Edge) : Sentence :=
  {| token := token s; edges := es1 ++ es2 |}.

(** [c] occurs in [s]. *)
Fixpoint str_mem (c : ascii) (s : string) : bool :=
  match s with
  | EmptyString => false
  | String a s' => if decide (a = c) then true else str_mem c s'
  end.

(** ** The command line: the report printed per relation *)

(** The words printed after ['->'] for one relation:
    [(tokens[relation[0]], '-'.join(...), tokens[relation[2]])]. *)
Definition resolve_relation (tokens : list string) (r : Relation)
  : option (string * string * string) :=
  subj ← py_index tokens (rel_subj r);
  pred ← resolve_pred tokens (rel_pred r);
  obj ← py_index tokens (rel_obj r);
  Some (subj, pred, obj).

(** The [for relation in sentence['relations']] loop: each relation with
    the words it stands for. *)
Definition report (res : SentenceResult)
  : option (list (Relation * (string * string * string))) :=
  mapM (fun r => (fun w => (r, w)) <$> resolve_relation (res_tokens res) r)
       (res_relations res).

(** *** Further notions used in the properties *)

(** The labels the verb extractor reacts to. *)
Definition verb_labels : list string := ["nsubj"; "acl"; "dobj"; "acl:relcl"].

(** The predicate tokens of the classified edges, in edge order. *)
Definition mentioned_preds (es : list Edge) : list Z :=
  omap (fun e => fst <$> classify e) es.

(** A list without its repetitions, each element at its first place. *)
Definition first_mentions (l : list Z) : list Z :=
  foldl (fun ks p => if decide (p ∈ ks) then ks else ks ++ [p]) [] l.

(** The edges the prepositional extractor reads: [nmod:] edges and the
    five indexed labels. *)
Definition nmod_relevant (e : Edge) : Prop :=
  startswith "nmod:" (dep e) = true ∨ dep e ∈ dep_labels.

#[global] Instance nmod_relevant_dec (e : Edge) : Decision (nmod_relevant e).
Proof. unfold nmod_relevant. apply _. Defined.

(** Only the five labels are ever keys of [dep_idx]. *)
Definition only_labels (idx : gmap string (gmap Z (list Z))) : Prop :=
  ∀ d, d ∉ dep_labels → idx !! d = None.

(** No [nmod:of] dependent governs an [nmod:of] edge. *)
Definition of_flat (es : list Edge) : Prop :=
  ∀ e1 e2, e1 ∈ es → e2 ∈ es → dep e1 = "nmod:of" → dep e2 = "nmod:of" →
           target e1 ≠ source e2.

(** ** Sample sentences *)

Definition tok (w p : string) : Token := {| word := w; pos := p |}.
Definition edg (d : string) (src tgt : Z) : Edge := {| source := src; target := tgt; dep := d |}.

(** "The cat chased the mouse ." *)
Definition cat_sentence : Sentence :=
  {| token := [tok "The" "DT"; tok "cat" "NN"; tok "chased" "VBD";
               tok "the" "DT"; tok "mouse" "NN"; tok "." "."];
     edges := [edg "nsubj" 3 2; edg "dobj" 3 5; edg "det" 2 1; edg "det" 5 4] |}.

(** "The car parked in front of the lake and the park ." *)
Definition park_sentence : Sentence :=
  {| token := [tok "The" "DT"; tok "car" "NN"; tok "parked" "VBD"; tok "in" "IN";
               tok "front" "NN"; tok "of" "IN"; tok "the" "DT"; tok "lake" "NN";
               tok "and" "CC"; tok "the" "DT"; tok "park" "NN"; tok "." "."];
     edges := [edg "nsubj" 3 2; edg "nmod:in_front_of" 3 8; edg "case" 8 4;
               edg "mwe" 4 5; edg "mwe" 4 6; edg "conj:and" 8 11;
               edg "nmod:in_front_of" 3 11; edg "cc" 8 9] |}.

(** "Cats and dogs chase mice and rats ." *)
Definition pets_sentence : Sentence :=
  {| token := [tok "Cats" "NNS"; tok "and" "CC"; tok "dogs" "NNS"; tok "chase" "VBP";
               tok "mice" "NNS"; tok "and" "CC"; tok "rats" "NNS"; tok "." "."];
     edges := [edg "nsubj" 4 1; edg "cc" 1 2; edg "conj:and" 1 3; edg "nsubj" 4 3;
               edg "dobj" 4 5; edg "cc" 5 6; edg "conj:and" 5 7; edg "dobj" 4 7] |}.

(** "A group of friends of Mary bought a car ." *)
Definition group_sentence : Sentence :=
  {| token := [tok "A" "DT"; tok "group" "NN"; tok "of" "IN"; tok "friends" "NNS";
               tok "of" "IN"; tok "Mary" "NNP"; tok "bought" "VBD"; tok "a" "DT";
               tok "car" "NN"; tok "." "."];
     edges := [edg "nsubj" 7 2; edg "dobj" 7 9; edg "nmod:of" 2 4; edg "case" 4 3;
               edg "nmod:of" 4 6; edg "case" 6 5; edg "det" 2 1; edg "det" 9 8] |}.

(** "A group of people bought a car ." *)
Definition people_sentence : Sentence :=
  {| token := [tok "A" "DT"; tok "group" "NN"; tok "of" "IN"; tok "people" "NNS";
               tok "bought" "VBD"; tok "a" "DT"; tok "car" "NN"; tok "." "."];
     edges := [edg "nsubj" 5 2; edg "dobj" 5 7; edg "nmod:of" 2 4; edg "case" 4 3;
               edg "det" 2 1; edg "det" 7 6] |}.

(** "The car stopped near the lake ." with a label the words do not bear
    out. *)
Definition lake_sentence : Sentence :=
  {| token := [tok "The" "DT"; tok "car" "NN"; tok "stopped" "VBD"; tok "near" "IN";
               tok "the" "DT"; tok "lake" "NN"; tok "." "."];
     edges := [edg "nsubj" 3 2; edg "nmod:next_to" 3 6; edg "case" 6 4] |}.

(** "Lake" with an edge to a token the sentence does not have. *)
Definition stray_sentence : Sentence :=
  {| token := [tok "Lake" "NN"];
     edges := [edg "nsubj" 1 1; edg "nmod:near" 1 5] |}.

(** "The bench under the tree ." *)
Definition bench_sentence : Sentence :=
  {| token := [tok "The" "DT"; tok "bench" "NN"; tok "under" "IN"; tok "the" "DT";
               tok "tree" "NN"; tok "." "."];
     edges := [edg "det" 2 1; edg "nmod:under" 2 5; edg "case" 5 3; edg "det" 5 4] |}.

(** "Wolves and bears hunt deer ." with the coordination left to a
    [conj:and] edge. *)
Definition pack_sentence : Sentence :=
  {| token := [tok "Wolves" "NNS"; tok "and" "CC"; tok "bears" "NNS"; tok "hunt" "VBP";
               tok "deer" "NN"; tok "." "."];
     edges := [edg "nsubj" 4 1; edg "cc" 1 2; edg "conj:and" 1 3; edg "dobj" 4 5] |}.

(** "Car near lake" with a case edge to a token that does not exist. *)
Definition gap_sentence : Sentence :=
  {| token := [tok "car" "NN"; tok "near" "IN"; tok "lake" "NN"];
     edges := [edg "nmod:by" 1 3; edg "case" 3 7] |}.

(** [lake_sentence] with a stray edge that no loop looks up. *)
Definition shore_sentence : Sentence :=
  {| token := token lake_sentence;
     edges := edges lake_sentence ++ [edg "det" 9 5] |}.

(** ** Proof automation *)

(** Well-formedness of a given sentence, edge by edge. *)
Ltac by_positions :=
  unfold wf_sentence, in_sentence; simpl;
  repeat (constructor; [unfold edg; simpl; lia|]); constructor.

(** Case analysis on every label test in sight. *)
Ltac split_decide :=
  repeat match goal with
         | H : context [decide ?P] |- _ => destruct (decide P)
         | |- context [decide ?P] => destruct (decide P)
         end.

Ltac by_label_cases :=
  split_decide; simplify_eq; try (exfalso; intuition congruence);
  repeat split; try done;
  intros; split_decide; try done; try (exfalso; intuition congruence).

(** ** Sample runs *)

Example py_index_from_the_end : py_index ["a"; "b"; "c"] (-1) = Some "c".
Proof. reflexivity. Qed.

Example py_index_out_of_range : py_index ["a"; "b"; "c"] 3 = None.
Proof. reflexivity. Qed.

Example cat_sentence_verbs : _extract_by_subj_obj cat_sentence = [(1, [2], 4)].
Proof. reflexivity. Qed.

Example park_sentence_nmod_relations :
  nmod_relations park_sentence = Some [(2, [3; 4; 5; 6], 8)].
Proof. vm_compute. reflexivity. Qed.

Example park_sentence_extract :
  res_relations <$> extract_sentence park_sentence
  = Some [(1, [2; 3; 4; 5], 7); (1, [2; 3; 4; 5], 10)].
Proof. vm_compute. reflexivity. Qed.

Example pets_sentence_verbs :
  _extract_by_subj_obj pets_sentence =
  [(0, [3], 4); (0, [3], 6); (2, [3], 4); (2, [3], 6)].
Proof. reflexivity. Qed.

Example group_sentence_once :
  _replace_by_of group_sentence [(1, [6], 8)] = [(3, [6], 8)].
Proof. vm_compute. reflexivity. Qed.

Example people_sentence_once :
  _replace_by_of people_sentence [(1, [4], 6)] = [(3, [4], 6)].
Proof. vm_compute. reflexivity. Qed.

Example group_sentence_twice :
  _replace_by_of group_sentence (_replace_by_of group_sentence [(1, [6], 8)]) = [(5, [6], 8)].
Proof. vm_compute. reflexivity. Qed.

(** ** Properties of the verb extractor *)

Section verb_extractor.

Lemma classify_Subj e p x :
  classify e = Some (p, Subj x) →
  subject_of p e = [x] ∧ object_of p e = [] ∧
  ∀ k, k ≠ p → subject_of k e = [] ∧ object_of k e = [].
Proof.
  unfold classify, subject_of, object_of. intros H. by_label_cases.
Qed.

Lemma classify_Obj e p x :
  classify e = Some (p, Obj x) →
  subject_of p e = [] ∧ object_of p e = [x] ∧
  ∀ k, k ≠ p → subject_of k e = [] ∧ object_of k e = [].
Proof.
  unfold classify, subject_of, object_of. intros H. by_label_cases.
Qed.

Lemma classify_None e k :
  classify e = None → subject_of k e = [] ∧ object_of k e = [].
Proof.
  unfold classify, subject_of, object_of. intros H. by_label_cases.
Qed.

Lemma pred2insts_add_keys p r d :
  (pred2insts_add p r d).*1 = if decide (p ∈ d.*1) then d.*1 else d.*1 ++ [p].
Proof.
  induction d as [|[k i] d IH].
  - rewrite decide_False; [done | set_solver].
  - cbn [pred2insts_add]. destruct (decide (k = p)) as [->|Hne].
    + rewrite decide_True; [done | set_solver].
    + rewrite fmap_cons, IH.
      destruct (decide (p ∈ d.*1)).
      * rewrite decide_True; [done | set_solver].
      * rewrite decide_False; [done | set_solver].
Qed.

Lemma pred2insts_add_elem p r d k i :
  NoDup d.*1 →
  (k, i) ∈ pred2insts_add p r d →
  (k ≠ p ∧ (k, i) ∈ d) ∨
  (k = p ∧ ∃ i0, i = add_role r i0 ∧
     ((p, i0) ∈ d ∨ ((p ∉ d.*1) ∧ i0 = {| subjs := []; objs := [] |}))).
Proof.
  induction d as [|[k' i'] d IH]; simpl; intros Hnd Hin.
  - apply list_elem_of_singleton in Hin. simplify_eq.
    right. split; [done|]. eexists. split; [done|]. right. set_solver.
  - apply NoDup_cons in Hnd as [Hk' Hnd].
    destruct (decide (k' = p)) as [->|Hne].
    + apply elem_of_cons in Hin as [Heq|Hin].
      * simplify_eq. right. split; [done|]. exists i'. set_solver.
      * left. split; [|set_solver]. intros ->. apply Hk'.
        apply list_elem_of_fmap. by exists (p, i).
    + apply elem_of_cons in Hin as [Heq|Hin].
      * simplify_eq. left. set_solver.
      * destruct (IH Hnd Hin) as [[? ?]|[-> (i0 & -> & [?|[? ->]])]].
        -- left. set_solver.
        -- right. split; [done|]. exists i0. set_solver.
        -- right. split; [done|]. eexists. split; [done|]. right. set_solver.
Qed.

Lemma candidates_snoc es e p :
  subject_candidates (es ++ [e]) p = subject_candidates es p ++ subject_of p e ∧
  object_candidates (es ++ [e]) p = object_candidates es p ++ object_of p e.
Proof.
  unfold subject_candidates, object_candidates.
  rewrite !bind_app. simpl. by rewrite !app_nil_r.
Qed.

Lemma build_pred2insts_inv es : pred2insts_inv es (build_pred2insts es).
Proof.
  unfold build_pred2insts.
  induction es as [|e es IH] using rev_ind.
  { split; [constructor|]. split; [set_solver|]. simpl. naive_solver. }
  rewrite foldl_app. simpl.
  set (d := foldl pred2insts_step [] es) in *.
  destruct IH as (Hnd & Hval & Hkey).
  unfold pred2insts_step.
  destruct (classify e) as [[p r]|] eqn:Hc.
  - assert (Hnd' : NoDup (pred2insts_add p r d).*1).
    { rewrite pred2insts_add_keys. case_decide; [done|].
      apply NoDup_app. split; [done|]. split; [set_solver|]. apply NoDup_singleton. }
    assert (Hside : ∀ k, k ≠ p → subject_of k e = [] ∧ object_of k e = []).
    { destruct r; [apply classify_Subj in Hc | apply classify_Obj in Hc]; naive_solver. }
    split; [done|]. split.
    + intros k i Hin.
      destruct (candidates_snoc es e k) as [-> ->].
      apply pred2insts_add_elem in Hin as [[Hne Hin]|[-> (i0 & -> & Hi0)]]; [| |done].
      * destruct (Hside k Hne) as [-> ->]. rewrite !app_nil_r. by apply Hval.
      * assert (subjs i0 = subject_candidates es p ∧ objs i0 = object_candidates es p)
          as [Hs Ho].
        { destruct Hi0 as [Hin|[Hnk ->]]; [by apply Hval|]. simpl.
          split.
          - destruct (subject_candidates es p) eqn:E; [done|].
            exfalso. apply Hnk, Hkey. left. by rewrite E.
          - destruct (object_candidates es p) eqn:E; [done|].
            exfalso. apply Hnk, Hkey. right. by rewrite E. }
        destruct r; [apply classify_Subj in Hc as (-> & -> & _)
                    | apply classify_Obj in Hc as (-> & -> & _)];
          simpl; rewrite ?app_nil_r; by rewrite Hs, Ho.
    + intros k Hk. rewrite pred2insts_add_keys.
      destruct (decide (k = p)) as [->|Hne].
      * case_decide; set_solver.
      * destruct (candidates_snoc es e k) as [Hs Ho]. rewrite Hs, Ho in Hk.
        destruct (Hside k Hne) as [Hs' Ho']. rewrite Hs', Ho', !app_nil_r in Hk.
        apply Hkey in Hk. case_decide; set_solver.
  - split; [done|]. split.
    + intros k i Hin. destruct (candidates_snoc es e k) as [-> ->].
      destruct (classify_None e k Hc) as [-> ->]. rewrite !app_nil_r. by apply Hval.
    + intros k Hk. destruct (candidates_snoc es e k) as [Hs Ho]. rewrite Hs, Ho in Hk.
      destruct (classify_None e k Hc) as [Hs' Ho']. rewrite Hs', Ho', !app_nil_r in Hk.
      by apply Hkey.
Qed.

Lemma elem_of_pred_relations r pi :
  r ∈ pred_relations pi ↔
  ∃ sj ob, sj ∈ subjs pi.2 ∧ ob ∈ objs pi.2 ∧ r = (sj - 1, [pi.1 - 1], ob - 1).
Proof.
  unfold pred_relations. rewrite list_elem_of_bind. split.
  - intros (sj & Hr & Hsj). apply list_elem_of_bind in Hr as (ob & Hr & Hob).
    apply list_elem_of_singleton in Hr. by exists sj, ob.
  - intros (sj & ob & Hsj & Hob & ->). exists sj. split; [|done].
    apply list_elem_of_bind. exists ob. split; [|done]. by apply list_elem_of_singleton.
Qed.

Lemma elem_of_extract_by_subj_obj s r :
  r ∈ _extract_by_subj_obj s ↔
  ∃ p sj ob, sj ∈ subject_candidates (edges s) p ∧
             ob ∈ object_candidates (edges s) p ∧
             r = (sj - 1, [p - 1], ob - 1).
Proof.
  unfold _extract_by_subj_obj.
  destruct (build_pred2insts_inv (edges s)) as (Hnd & Hval & Hkey).
  rewrite list_elem_of_bind. split.
  - intros ([p i] & Hr & Hin). apply elem_of_pred_relations in Hr as (sj & ob & Hsj & Hob & ->).
    destruct (Hval p i Hin) as [Hs Ho]. simpl in *. rewrite Hs in Hsj. rewrite Ho in Hob.
    by exists p, sj, ob.
  - intros (p & sj & ob & Hsj & Hob & ->).
    assert (p ∈ (build_pred2insts (edges s)).*1) as Hp.
    { apply Hkey. left. intros E. rewrite E in Hsj. by apply not_elem_of_nil in Hsj. }
    apply list_elem_of_fmap in Hp as ([p' i] & -> & Hin). simpl.
    exists (p', i). split; [|done]. apply elem_of_pred_relations.
    destruct (Hval p' i Hin) as [Hs Ho]. exists sj, ob. simpl. by rewrite Hs, Ho.
Qed.

End verb_extractor.

(** ** Sets and indices *)

Section indices.

Lemma elem_of_set_add_all (X : gset Relation) l r :
  r ∈ set_add_all X l ↔ r ∈ X ∨ r ∈ l.
Proof.
  unfold set_add_all. revert X.
  induction l as [|x l IH]; intros X; simpl.
  - set_solver.
  - rewrite IH. set_solver.
Qed.

Lemma entry_default l : default [] (entry l) = l.
Proof. by destruct l. Qed.

Lemma entry_snoc l x : entry (l ++ [x]) = Some (l ++ [x]).
Proof. by destruct l. Qed.

Lemma entry_Some l l' : entry l = Some l' → l' = l ∧ l ≠ [].
Proof. destruct l; naive_solver. Qed.

Lemma dependents_snoc es e d k :
  dependents (es ++ [e]) d k =
  dependents es d k ++
    (if decide (dep e = d ∧ governor d e = k) then [dependent d e] else []).
Proof.
  unfold dependents. rewrite filter_app, fmap_app. f_equal.
  rewrite filter_cons, filter_nil. by destruct (decide _).
Qed.

Lemma elem_of_dependents es d k x :
  x ∈ dependents es d k ↔
  ∃ e, e ∈ es ∧ dep e = d ∧ governor d e = k ∧ dependent d e = x.
Proof.
  unfold dependents. rewrite list_elem_of_fmap. split.
  - intros (e & -> & He). apply list_elem_of_filter in He. naive_solver.
  - intros (e & He & Hd & Hg & <-). exists e. split; [done|].
    apply list_elem_of_filter. naive_solver.
Qed.

(** The [acl] entry of [k] lists the sources of the [acl] edges into
    [k]; the entry for any other label lists the targets of the edges
    out of [k]. *)
Lemma dependents_acl es k :
  dependents es "acl" k =
  source <$> filter (fun a => dep a = "acl" ∧ target a = k) es.
Proof. reflexivity. Qed.

Lemma dependents_forward es d k :
  d ≠ "acl" →
  dependents es d k = target <$> filter (fun a => dep a = d ∧ source a = k) es.
Proof.
  intros Hd. unfold dependents, governor, dependent.
  induction es as [|a es IH]; [done|].
  rewrite !filter_cons, (decide_False (P := d = "acl")) by done.
  destruct (decide (dep a = d ∧ source a = k)); rewrite ?fmap_cons, IH;
    by rewrite ?(decide_False (P := d = "acl")).
Qed.

Lemma dep_idx_init_lookup d :
  dep_idx_init !! d = if decide (d ∈ dep_labels) then Some ∅ else None.
Proof.
  destruct (decide (d ∈ dep_labels)) as [Hd|Hd].
  - unfold dep_labels in Hd. set_unfold.
    destruct Hd as [->|[->|[->|[->|[->|[]]]]]]; reflexivity.
  - apply not_elem_of_list_to_map_1.
    by rewrite <-list_fmap_compose, list_fmap_id.
Qed.

(** What [dep_idx] holds after the indexing loop. *)
Lemma build_dep_idx_lookup es d :
  build_dep_idx es !! d =
  if decide (d ∈ dep_labels)
  then Some (build_dep_idx es !!! d) else None.
Proof.
  unfold build_dep_idx.
  induction es as [|e es IH] using rev_ind.
  - simpl. rewrite lookup_total_alt, dep_idx_init_lookup.
    destruct (decide _); reflexivity.
  - rewrite foldl_app. simpl. set (idx := foldl dep_idx_step dep_idx_init es) in *.
    unfold dep_idx_step. destruct (idx !! dep e) as [m|] eqn:Hm; [|done].
    destruct (if decide (dep e = "acl") then _ else _) as [g t].
    rewrite lookup_total_alt.
    destruct (decide (dep e = d)) as [<-|Hne].
    + rewrite lookup_insert_eq. rewrite IH in Hm. by destruct (decide _).
    + rewrite lookup_insert_ne by done. rewrite IH. by destruct (decide _).
Qed.

Lemma idx_get_build es d k :
  idx_get (build_dep_idx es) d k =
  if decide (d ∈ dep_labels) then entry (dependents es d k) else None.
Proof.
  unfold idx_get. revert k.
  induction es as [|e es IH] using rev_ind; intros k.
  - unfold build_dep_idx. simpl. rewrite lookup_total_alt, dep_idx_init_lookup.
    destruct (decide _); simpl; by rewrite lookup_empty.
  - unfold build_dep_idx. rewrite foldl_app. simpl. fold (build_dep_idx es).
    unfold dep_idx_step. rewrite dependents_snoc.
    destruct (build_dep_idx es !! dep e) as [m|] eqn:Hm;
      rewrite build_dep_idx_lookup in Hm;
      destruct (decide (dep e ∈ dep_labels)) as [Hl|Hl]; simplify_eq.
    + replace (if decide (dep e = "acl") then (target e, source e)
               else (source e, target e))
        with (governor (dep e) e, dependent (dep e) e)
        by (unfold governor, dependent; by destruct (decide (dep e = "acl"))).
      destruct (decide (dep e = d)) as [<-|Hne].
      * rewrite lookup_total_insert_eq.
        destruct (decide (governor (dep e) e = k)) as [<-|Hk].
        -- rewrite lookup_insert_eq, IH.
           rewrite (decide_True (P := _ ∧ _)) by done.
           destruct (decide (dep e ∈ dep_labels)); [|done].
           by rewrite entry_default, entry_snoc.
        -- rewrite lookup_insert_ne, IH by done.
           rewrite (decide_False (P := _ ∧ _)) by (intros [? ?]; done).
           by rewrite app_nil_r.
      * rewrite lookup_total_insert_ne, IH by done.
        rewrite (decide_False (P := _ ∧ _)) by (intros [? ?]; done). by rewrite app_nil_r.
    + rewrite IH. destruct (decide (d ∈ dep_labels)); [|done].
      rewrite (decide_False (P := _ ∧ _)) by (intros [<- _]; done). by rewrite app_nil_r.
Qed.

Lemma of_dependents_snoc es e k :
  of_dependents (es ++ [e]) k =
  of_dependents es k ++
    (if decide (dep e = "nmod:of" ∧ source e - 1 = k) then [target e - 1] else []).
Proof.
  unfold of_dependents. rewrite filter_app, fmap_app. f_equal.
  rewrite filter_cons, filter_nil. by destruct (decide _).
Qed.

Lemma elem_of_of_dependents es k x :
  x ∈ of_dependents es k ↔
  ∃ e, e ∈ es ∧ dep e = "nmod:of" ∧ source e - 1 = k ∧ target e - 1 = x.
Proof.
  unfold of_dependents. rewrite list_elem_of_fmap. split.
  - intros (e & -> & He). apply list_elem_of_filter in He. naive_solver.
  - intros (e & He & Hd & Hg & <-). exists e. split; [done|].
    apply list_elem_of_filter. naive_solver.
Qed.

(** What [of_idx] holds after its loop. *)
Lemma build_of_idx_lookup es k :
  build_of_idx es !! k = entry (of_dependents es k).
Proof.
  unfold build_of_idx.
  induction es as [|e es IH] using rev_ind; [done|].
  rewrite foldl_app. simpl. fold (build_of_idx es) in *.
  unfold of_idx_step. rewrite of_dependents_snoc.
  destruct (decide (dep e = "nmod:of")) as [Hd|Hd].
  - destruct (decide (source e - 1 = k)) as [<-|Hk].
    + rewrite lookup_insert_eq, (decide_True (P := _ ∧ _)) by done.
      by rewrite IH, entry_default, entry_snoc.
    + rewrite lookup_insert_ne by done.
      rewrite (decide_False (P := _ ∧ _)) by (intros [? ?]; done). by rewrite app_nil_r.
  - rewrite (decide_False (P := _ ∧ _)) by (intros [? ?]; done). by rewrite app_nil_r.
Qed.

End indices.

(** ** Properties of the possessive rewriter *)

Section rewriter.

Lemma of_governor_dependents es k : of_governor es k ↔ of_dependents es k ≠ [].
Proof.
  split.
  - intros (e & He & Hd & Hk) Hnil.
    assert (target e - 1 ∈ of_dependents es k) as Hin
      by (apply elem_of_of_dependents; eauto).
    rewrite Hnil in Hin. by apply not_elem_of_nil in Hin.
  - destruct (of_dependents es k) as [|x l] eqn:E; [done|]. intros _.
    assert (x ∈ of_dependents es k) as Hin by (rewrite E; left).
    apply elem_of_of_dependents in Hin as (e & ? & ? & ? & ?). by exists e.
Qed.

Lemma real_insts_build es k :
  real_insts (build_of_idx es) k =
  match of_dependents es k with [] => [k] | l => l end.
Proof.
  unfold real_insts. rewrite build_of_idx_lookup. by destruct (of_dependents es k).
Qed.

Lemma elem_of_real_insts es k k' :
  k' ∈ real_insts (build_of_idx es) k ↔ substitute_of es k k'.
Proof.
  rewrite real_insts_build. unfold substitute_of.
  rewrite of_governor_dependents.
  destruct (of_dependents es k) as [|x l].
  - rewrite list_elem_of_singleton. intuition congruence.
  - intuition congruence.
Qed.

Lemma real_insts_nonempty es k : real_insts (build_of_idx es) k ≠ [].
Proof. rewrite real_insts_build. by destruct (of_dependents es k). Qed.

Lemma elem_of_replace_relation es r r' :
  r' ∈ replace_relation (build_of_idx es) r ↔
  ∃ sj' ob', substitute_of es (rel_subj r) sj' ∧ substitute_of es (rel_obj r) ob' ∧
             r' = (sj', rel_pred r, ob').
Proof.
  destruct r as [[sj pr] ob]. unfold replace_relation, rel_subj, rel_pred, rel_obj. simpl.
  rewrite list_elem_of_bind. split.
  - intros (sj' & Hr & Hsj). apply list_elem_of_bind in Hr as (ob' & Hr & Hob).
    apply list_elem_of_singleton in Hr. exists sj', ob'.
    by rewrite <-!elem_of_real_insts.
  - intros (sj' & ob' & Hsj & Hob & ->). exists sj'.
    rewrite elem_of_real_insts. split; [|done].
    apply list_elem_of_bind. exists ob'. rewrite elem_of_real_insts.
    split; [|done]. by apply list_elem_of_singleton.
Qed.

Lemma elem_of_replace_by_of s relations r' :
  r' ∈ _replace_by_of s relations ↔
  ∃ r, r ∈ relations ∧ r' ∈ replace_relation (build_of_idx (edges s)) r.
Proof.
  unfold _replace_by_of, replaced_relations.
  rewrite elem_of_elements, elem_of_set_add_all, list_elem_of_bind.
  set_solver.
Qed.

(** An endpoint the rewriter has produced is left alone by a second
    pass when no [nmod:of] dependent governs an [nmod:of] edge itself. *)
Lemma substitute_of_stable es k k' k'' :
  (∀ e1 e2, e1 ∈ es → e2 ∈ es → dep e1 = "nmod:of" → dep e2 = "nmod:of" →
            target e1 ≠ source e2) →
  substitute_of es k k' → (substitute_of es k' k'' ↔ k'' = k').
Proof.
  intros Hflat Hk.
  assert (¬ of_governor es k') as Hng.
  { destruct Hk as [[_ Hin]|[Hng ->]]; [|done].
    apply elem_of_of_dependents in Hin as (e1 & He1 & Hd1 & _ & Ht).
    intros (e2 & He2 & Hd2 & Hs). apply (Hflat e1 e2); try done. lia. }
  unfold substitute_of. intuition congruence.
Qed.

End rewriter.

(** ** Python sequences and strings *)

Section python.

Lemma py_index_in_range {A} (l : list A) (i : Z) :
  1 <= i <= Z.of_nat (length l) →
  py_index l (i - 1) = l !! Z.to_nat (i - 1) ∧ is_Some (py_index l (i - 1)).
Proof.
  intros Hi. unfold py_index. rewrite decide_True by lia.
  split; [done|]. apply lookup_lt_is_Some. lia.
Qed.

Lemma py_index_fmap {A B} (f : A → B) (l : list A) (i : Z) :
  py_index (f <$> l) i = f <$> py_index l i.
Proof.
  unfold py_index. rewrite length_fmap.
  repeat destruct (decide _); by rewrite ?list_lookup_fmap.
Qed.

Lemma str_mem_app c (s1 s2 : string) :
  str_mem c (s1 ++ s2)%string = str_mem c s1 || str_mem c s2.
Proof.
  induction s1 as [|a s1 IH]; simpl; [done|]. by destruct (decide (a = c)).
Qed.

Lemma join_cons_cons sep w1 w2 ws :
  join sep (w1 :: w2 :: ws) = (w1 ++ sep ++ join sep (w2 :: ws))%string.
Proof. reflexivity. Qed.

(** Joining two or more words leaves the separator in the result. *)
Lemma str_mem_join c ws :
  (2 <= length ws)%nat → str_mem c (join (String c EmptyString) ws) = true.
Proof.
  destruct ws as [|w1 [|w2 ws]]; simpl length; try lia. intros _.
  rewrite join_cons_cons, !str_mem_app. simpl str_mem at 2.
  rewrite decide_True by done. simpl. by rewrite orb_true_r.
Qed.

Lemma mapM_length {A B} (f : A → option B) l k :
  mapM f l = Some k → length k = length l.
Proof. intros H. apply mapM_Some in H. by apply Forall2_length in H. Qed.

(** An edge that appends nothing could as well be absent. *)
Lemma mapM_join_skip {A B} (f : A → option (list B)) l1 x l2 :
  f x = Some [] →
  mjoin <$> mapM f (l1 ++ x :: l2) = mjoin <$> mapM f (l1 ++ l2).
Proof.
  intros Hx. induction l1 as [|a l1 IH]; simpl.
  - rewrite Hx. simpl. by destruct (mapM f l2).
  - destruct (f a) as [y|]; simpl; [|done].
    destruct (mapM f (l1 ++ x :: l2)) as [k|], (mapM f (l1 ++ l2)) as [k'|];
      simpl in *; congruence.
Qed.

End python.

(** ** Well-formed sentences *)

Section well_formed.
Context (s : Sentence) (Hwf : wf_sentence s).

Lemma wf_edge e :
  e ∈ edges s → in_sentence s (source e) ∧ in_sentence s (target e).
Proof. revert e. by apply Forall_forall. Qed.

Lemma wf_dependents d k x :
  x ∈ dependents (edges s) d k → in_sentence s x.
Proof.
  intros (e & He & _ & _ & <-)%elem_of_dependents.
  destruct (wf_edge e He). unfold dependent. by destruct (decide _).
Qed.

Lemma wf_idx_get d k l :
  idx_get (build_dep_idx (edges s)) d k = Some l → Forall (in_sentence s) l.
Proof.
  rewrite idx_get_build. destruct (decide _); [|done].
  intros [-> _]%entry_Some. apply Forall_forall. intros x. apply wf_dependents.
Qed.

Lemma wf_token i : in_sentence s i → is_Some (py_index (token s) (i - 1)).
Proof. intros Hi. by apply py_index_in_range. Qed.

Lemma wf_words l :
  Forall (in_sentence s) l →
  is_Some (mapM (fun idx => word <$> py_index (token s) (idx - 1)) l).
Proof.
  intros Hl. apply mapM_is_Some. eapply Forall_impl; [done|].
  intros i Hi. simpl. destruct (wf_token i Hi) as [t ->]. by eexists.
Qed.

End well_formed.

(** ** The loops of the prepositional extractor *)

Section prepositional.
Context (s : Sentence).

Local Abbreviation idx := (build_dep_idx (edges s)).
Local Abbreviation tokens := (token s).

Lemma Forall2_elem_of_l {A B} (P : A → B → Prop) l k x :
  Forall2 P l k → x ∈ l → ∃ y, y ∈ k ∧ P x y.
Proof.
  induction 1 as [|a b l k Hab _ IH]; intros Hx; [by apply not_elem_of_nil in Hx|].
  apply elem_of_cons in Hx as [->|Hx].
  - exists b. split; [left | done].
  - destruct (IH Hx) as (y & ? & ?). exists y. split; [by right | done].
Qed.

Lemma Forall2_elem_of_r {A B} (P : A → B → Prop) l k y :
  Forall2 P l k → y ∈ k → ∃ x, x ∈ l ∧ P x y.
Proof.
  induction 1 as [|a b l k Hab _ IH]; intros Hy; [by apply not_elem_of_nil in Hy|].
  apply elem_of_cons in Hy as [->|Hy].
  - exists a. split; [left | done].
  - destruct (IH Hy) as (x & ? & ?). exists x. split; [by right | done].
Qed.

Lemma label_indexed d : d ∈ dep_labels → ∀ k,
  idx_get idx d k = entry (dependents (edges s) d k).
Proof. intros Hd k. rewrite idx_get_build. by rewrite decide_True. Qed.

Lemma mwe_indexed : "mwe" ∈ dep_labels.
Proof. unfold dep_labels. set_solver. Qed.
Lemma case_indexed : "case" ∈ dep_labels.
Proof. unfold dep_labels. set_solver. Qed.
Lemma acl_indexed : "acl" ∈ dep_labels.
Proof. unfold dep_labels. set_solver. Qed.
Lemma nsubj_indexed : "nsubj" ∈ dep_labels.
Proof. unfold dep_labels. set_solver. Qed.
Lemma conj_and_indexed : "conj:and" ∈ dep_labels.
Proof. unfold dep_labels. set_solver. Qed.

(** What a candidate predicate looks like: it starts at the case token,
    continues with that token's [mwe] dependents, and every position in
    it has been looked up.  A single position means the word compared
    was that token's own word. *)
Lemma case_word_shape c cw :
  case_word idx tokens c = Some cw →
  cw.1 = c :: default [] (entry (dependents (edges s) "mwe" c)) ∧
  (∀ i, i ∈ cw.1 → is_Some (py_index tokens (i - 1))) ∧
  ((cw.1 = [c] ∧ ∃ t, py_index tokens (c - 1) = Some t ∧ cw.2 = word t) ∨
   (2 <= length cw.1)%nat).
Proof.
  unfold case_word. destruct (py_index tokens (c - 1)) as [t|] eqn:Ht; [|done].
  cbn [mbind option_bind]. rewrite entry_default.
  destruct (idx_get idx "mwe" c) as [more|] eqn:Hmwe;
    rewrite (label_indexed "mwe" mwe_indexed) in Hmwe.
  - apply entry_Some in Hmwe as [-> Hne].
    destruct (mapM _ (c :: _)) as [ws|] eqn:Hws; [|done].
    cbn [mbind option_bind]. intros [= <-]. cbn [fst snd]. split; [done|]. split.
    + intros i Hi.
      assert (is_Some (mapM (fun idx => word <$> py_index tokens (idx - 1))
                            (c :: dependents (edges s) "mwe" c))) as Hall
        by (rewrite Hws; eauto).
      apply mapM_is_Some in Hall. rewrite Forall_forall in Hall.
      specialize (Hall i Hi). simpl in Hall. by apply fmap_is_Some in Hall.
    + right. destruct (dependents (edges s) "mwe" c); [done|]. simpl. lia.
  - destruct (dependents (edges s) "mwe" c); [|done].
    intros [= <-]. cbn [fst snd]. split; [done|]. split.
    + intros i ->%list_elem_of_singleton. by rewrite Ht.
    + left. eauto.
Qed.

Lemma case_word_wf c :
  wf_sentence s → in_sentence s c → is_Some (case_word idx tokens c).
Proof.
  intros Hwf Hc. unfold case_word.
  destruct (wf_token s c Hc) as [t ->]. cbn [mbind option_bind].
  destruct (idx_get idx "mwe" c) as [more|] eqn:Hm; [|by eexists].
  apply (wf_idx_get s Hwf) in Hm.
  destruct (wf_words s (c :: more)) as [ws Hws]; [by constructor|].
  rewrite Hws. by eexists.
Qed.

Lemma find_pred_inv X cases p :
  find_pred idx tokens X cases = Some (Some p) →
  ∃ c cw, c ∈ cases ∧ case_word idx tokens c = Some cw ∧ cw.1 = p ∧ cw.2 = X.
Proof.
  induction cases as [|c cases IH]; simpl; [done|].
  destruct (case_word idx tokens c) as [cw|] eqn:Hcw; simpl; [|done].
  destruct (decide (cw.2 = X)) as [HX|HX].
  - intros [= <-]. exists c, cw. split; [left | done].
  - intros (c' & cw' & ? & ?)%IH. exists c', cw'. split; [by right | done].
Qed.

Lemma find_pred_no_match X cases :
  (∀ c, c ∈ cases → is_Some (case_word idx tokens c)) →
  (∀ c cw, c ∈ cases → case_word idx tokens c = Some cw → cw.2 ≠ X) →
  find_pred idx tokens X cases = Some None.
Proof.
  induction cases as [|c cases IH]; simpl; intros Hsome Hne; [done|].
  destruct (Hsome c) as [cw Hcw]; [left|]. rewrite Hcw. simpl.
  rewrite decide_False by (eapply Hne; [left | done]).
  apply IH; intros; [apply Hsome | eapply Hne]; try done; by right.
Qed.

Lemma find_pred_is_Some X cases :
  (∀ c, c ∈ cases → is_Some (case_word idx tokens c)) →
  is_Some (find_pred idx tokens X cases).
Proof.
  induction cases as [|c cases IH]; simpl; intros Hsome; [by eexists|].
  destruct (Hsome c) as [cw Hcw]; [left|]. rewrite Hcw. simpl.
  destruct (decide _); [by eexists|]. apply IH. intros. apply Hsome. by right.
Qed.

Lemma verb_phrase_relations_acl_nsubj e p :
  verb_phrase_relations idx e p ["acl"; "nsubj"] =
  (fun sj => (sj, if decide (head p = Some (source e + 1)) then source e :: p else p,
              target e)) <$> governing_subjects (edges s) (source e).
Proof.
  unfold governing_subjects. simpl.
  rewrite (label_indexed "acl" acl_indexed), (label_indexed "nsubj" nsubj_indexed).
  destruct (dependents (edges s) "acl" (source e)); simpl; [|done].
  by destruct (dependents (edges s) "nsubj" (source e)).
Qed.

Lemma governing_subjects_wf k x :
  wf_sentence s → x ∈ governing_subjects (edges s) k → in_sentence s x.
Proof.
  intros Hwf. unfold governing_subjects.
  destruct (dependents (edges s) "acl" k) eqn:E.
  - apply (wf_dependents s Hwf).
  - rewrite <-E. apply (wf_dependents s Hwf).
Qed.

(** Where a relation appended for edge [e] comes from. *)
Lemma nmod_edge_inv e l r :
  nmod_edge idx tokens e = Some l → r ∈ l →
  startswith "nmod:" (dep e) = true ∧ (str_drop 5 (dep e) ∉ exclude) ∧
  is_Some (py_index tokens (source e - 1)) ∧
  ∃ c cw, c ∈ dependents (edges s) "case" (target e) ∧
    case_word idx tokens c = Some cw ∧ cw.2 = str_drop 5 (dep e) ∧
    rel_obj r = target e ∧
    ((rel_subj r = source e ∧ rel_pred r = cw.1) ∨
     (rel_subj r ∈ governing_subjects (edges s) (source e) ∧
      (rel_pred r = cw.1 ∨ rel_pred r = source e :: cw.1))).
Proof.
  unfold nmod_edge.
  destruct (startswith "nmod:" (dep e)); cbn [negb]; [|by intros [= <-] ?%not_elem_of_nil].
  destruct (decide (_ ∈ exclude)) as [|Hex]; [by intros [= <-] ?%not_elem_of_nil|].
  destruct (py_index tokens (target e - 1)) as [tt|]; cbn [mbind option_bind]; [|done].
  destruct (startswith "NN" (pos tt)); cbn [negb]; [|by intros [= <-] ?%not_elem_of_nil].
  rewrite (label_indexed "case" case_indexed).
  destruct (entry _) as [cases|] eqn:Hcases; [|by intros [= <-] ?%not_elem_of_nil].
  apply entry_Some in Hcases as [-> _].
  destruct (find_pred _ _ _ _) as [[p|]|] eqn:Hp; cbn [mbind option_bind];
    [|by intros [= <-] ?%not_elem_of_nil|done].
  apply find_pred_inv in Hp as (c & cw & Hc & Hcw & <- & HX).
  destruct (py_index tokens (source e - 1)) as [st|]; cbn [mbind option_bind]; [|done].
  intros Hl Hr. split; [done|]. split; [done|]. split; [by eexists|].
  exists c, cw. split; [done|]. split; [done|]. split; [done|].
  destruct (startswith "NN" (pos st)); simplify_eq.
  - apply list_elem_of_singleton in Hr as ->. split; [done|]. by left.
  - rewrite verb_phrase_relations_acl_nsubj in Hr.
    apply list_elem_of_fmap in Hr as (sj & -> & Hsj). split; [done|]. right.
    split; [done|]. unfold rel_pred. simpl. destruct (decide _); [by right | by left].
Qed.

Lemma nmod_edge_wf e :
  wf_sentence s → e ∈ edges s → is_Some (nmod_edge idx tokens e).
Proof.
  intros Hwf He. destruct (wf_edge s Hwf e He) as [Hsrc Htgt].
  unfold nmod_edge.
  destruct (startswith "nmod:" (dep e)); cbn [negb]; [|by eexists].
  destruct (decide (_ ∈ exclude)); [by eexists|].
  destruct (wf_token s _ Htgt) as [tt ->]. cbn [mbind option_bind].
  destruct (startswith "NN" (pos tt)); cbn [negb]; [|by eexists].
  destruct (idx_get idx "case" (target e)) as [cases|] eqn:Hcases; [|by eexists].
  apply (wf_idx_get s Hwf) in Hcases. rewrite Forall_forall in Hcases.
  destruct (find_pred_is_Some (str_drop 5 (dep e)) cases) as [[p|] ->];
    cbn [mbind option_bind].
  - intros c Hc. apply case_word_wf; [done|]. by apply Hcases.
  - destruct (wf_token s _ Hsrc) as [st ->]. cbn [mbind option_bind].
    destruct (startswith "NN" (pos st)); by eexists.
  - by eexists.
Qed.

Lemma elem_of_nmod_relations rels r :
  nmod_relations s = Some rels →
  r ∈ rels ↔ ∃ e l, e ∈ edges s ∧ nmod_edge idx tokens e = Some l ∧ r ∈ l.
Proof.
  unfold nmod_relations. intros (ls & Hls & ->)%fmap_Some.
  apply mapM_Some in Hls. rewrite list_elem_of_join. split.
  - intros (l & Hr & Hl).
    destruct (Forall2_elem_of_r _ _ _ _ Hls Hl) as (e & He & Hel). by exists e, l.
  - intros (e & l & He & Hel & Hr).
    destruct (Forall2_elem_of_l _ _ _ _ Hls He) as (l' & Hl' & Hel').
    exists l'. split; [|done]. congruence.
Qed.

Lemma nmod_relations_wf : wf_sentence s → is_Some (nmod_relations s).
Proof.
  intros Hwf. unfold nmod_relations. apply fmap_is_Some, mapM_is_Some.
  apply Forall_forall. intros e He. by apply nmod_edge_wf.
Qed.

End prepositional.

(** ** The verb extractor emits the cross product *)

(** C1.  The output of the verb extractor is, as a set, exactly the
    triples [(s-1, (p-1), o-1)] with [s] a subject candidate and [o] an
    object candidate of one predicate token [p]; edges with other labels
    take no part.  A predicate lacking subjects or lacking objects
    contributes nothing, and every emitted predicate has one token. *)
Theorem extract_by_subj_obj_cross_product (s : Sentence) :
  (∀ r, r ∈ _extract_by_subj_obj s ↔
        ∃ p sj ob, sj ∈ subject_candidates (edges s) p ∧
                   ob ∈ object_candidates (edges s) p ∧
                   r = (sj - 1, [p - 1], ob - 1)) ∧
  (∀ p, subject_candidates (edges s) p = [] ∨ object_candidates (edges s) p = [] →
        ∀ r, r ∈ _extract_by_subj_obj s → rel_pred r ≠ [p - 1]) ∧
  (∀ r, r ∈ _extract_by_subj_obj s → length (rel_pred r) = 1%nat).
Proof.
  split; [apply elem_of_extract_by_subj_obj|]. split.
  - intros p Hempty r (p' & sj & ob & Hsj & Hob & ->)%elem_of_extract_by_subj_obj.
    unfold rel_pred. simpl. intros [= Hp]. assert (p' = p) as -> by lia.
    destruct Hempty as [E|E]; rewrite E in *; by eapply not_elem_of_nil.
  - by intros r (p' & sj & ob & _ & _ & ->)%elem_of_extract_by_subj_obj.
Qed.

Lemma extract_by_subj_obj_cross_product_witness :
  ∃ p sj ob, sj ∈ subject_candidates (edges pets_sentence) p ∧
             ob ∈ object_candidates (edges pets_sentence) p ∧
             (2, [3], 6) = (sj - 1, [p - 1], ob - 1).
Proof.
  apply (proj1 (extract_by_subj_obj_cross_product pets_sentence)).
  vm_compute. do 3 right. left.
Defined.

(** ** The possessive rewriter *)

(** C2.  The rewriter returns, without duplicates, exactly the triples
    [(s', pred, o')] where [(s, pred, o)] is an input relation, [s'] is an
    [nmod:of] dependent of [s] if [s] is a key of the index and [s] itself
    otherwise, and [o'] likewise for [o].  The substitution is one step
    only and the predicate is untouched. *)
Theorem replace_by_of_substitutes (s : Sentence) (relations : list Relation) :
  NoDup (_replace_by_of s relations) ∧
  ∀ r', r' ∈ _replace_by_of s relations ↔
        ∃ sj pr ob sj' ob', (sj, pr, ob) ∈ relations ∧
          substitute_of (edges s) sj sj' ∧ substitute_of (edges s) ob ob' ∧
          r' = (sj', pr, ob').
Proof.
  split; [apply NoDup_elements|]. intros r'.
  rewrite elem_of_replace_by_of. split.
  - intros ([[sj pr] ob] & Hr & (sj' & ob' & ? & ? & ->)%elem_of_replace_relation).
    by exists sj, pr, ob, sj', ob'.
  - intros (sj & pr & ob & sj' & ob' & Hr & Hsj & Hob & ->).
    exists (sj, pr, ob). split; [done|]. apply elem_of_replace_relation. by exists sj', ob'.
Qed.

Lemma replace_by_of_substitutes_witness :
  ∃ sj pr ob sj' ob', (sj, pr, ob) ∈ [(1, [6], 8)] ∧
    substitute_of (edges group_sentence) sj sj' ∧
    substitute_of (edges group_sentence) ob ob' ∧
    (3, [6], 8) = (sj', pr, ob').
Proof.
  apply (proj1 (proj2 (replace_by_of_substitutes group_sentence [(1, [6], 8)]) _)).
  vm_compute. left.
Defined.

(** C9.  No input relation is lost: the list substituted for an endpoint
    is never empty, so each input relation leaves at least one relation
    with its predicate in the output, and a non-empty input gives a
    non-empty output. *)
Theorem replace_by_of_keeps_relations (s : Sentence) (relations : list Relation) :
  (∀ k, real_insts (build_of_idx (edges s)) k ≠ []) ∧
  (∀ sj pr ob, (sj, pr, ob) ∈ relations →
               ∃ sj' ob', (sj', pr, ob') ∈ _replace_by_of s relations) ∧
  (relations ≠ [] → _replace_by_of s relations ≠ []).
Proof.
  assert (Hkeep : ∀ sj pr ob, (sj, pr, ob) ∈ relations →
                    ∃ sj' ob', (sj', pr, ob') ∈ _replace_by_of s relations).
  { intros sj pr ob Hr.
    destruct (real_insts (build_of_idx (edges s)) sj) as [|sj' ?] eqn:Esj;
      [by apply real_insts_nonempty in Esj|].
    destruct (real_insts (build_of_idx (edges s)) ob) as [|ob' ?] eqn:Eob;
      [by apply real_insts_nonempty in Eob|].
    exists sj', ob'. apply elem_of_replace_by_of. exists (sj, pr, ob). split; [done|].
    apply elem_of_replace_relation. exists sj', ob'.
    rewrite <-!elem_of_real_insts. unfold rel_subj, rel_obj. simpl.
    rewrite Esj, Eob. repeat split; left. }
  split; [intros k; apply real_insts_nonempty|]. split; [done|].
  destruct relations as [|[[sj pr] ob] relations]; [done|]. intros _ Hnil.
  destruct (Hkeep sj pr ob) as (sj' & ob' & Hin); [left|].
  rewrite Hnil in Hin. by apply not_elem_of_nil in Hin.
Qed.

Lemma replace_by_of_keeps_relations_witness :
  ∃ sj' ob', (sj', [6], ob') ∈ _replace_by_of group_sentence [(1, [6], 8)].
Proof.
  apply (proj1 (proj2 (replace_by_of_keeps_relations group_sentence [(1, [6], 8)]))
           1 [6] 8).
  left.
Defined.

(** C7, as stated, fails: with "group of friends of Mary" a second pass
    moves the subject on from "friends" to "Mary". *)
Lemma replace_by_of_not_idempotent :
  ¬ (∀ (s : Sentence) (relations : list Relation) (r : Relation),
       r ∈ _replace_by_of s (_replace_by_of s relations) ↔ r ∈ _replace_by_of s relations).
Proof.
  intros Hidem.
  specialize (Hidem group_sentence [(1, [6], 8)] (3, [6], 8)).
  rewrite group_sentence_twice, group_sentence_once in Hidem.
  destruct Hidem as [_ Hback]. specialize (Hback ltac:(left)).
  apply list_elem_of_singleton in Hback. discriminate Hback.
Qed.

(** C7, amended.  When no [nmod:of] dependent is itself the governor of
    an [nmod:of] edge, rewriting the rewriter's output changes nothing:
    both passes give the same set. *)
Theorem replace_by_of_idempotent (s : Sentence) (relations : list Relation) :
  (∀ e1 e2, e1 ∈ edges s → e2 ∈ edges s → dep e1 = "nmod:of" → dep e2 = "nmod:of" →
            target e1 ≠ source e2) →
  ∀ r, r ∈ _replace_by_of s (_replace_by_of s relations) ↔ r ∈ _replace_by_of s relations.
Proof.
  intros Hflat r. rewrite (elem_of_replace_by_of s (_replace_by_of s relations)). split.
  - intros ([[sj pr] ob] & Hr & (sj' & ob' & Hsj & Hob & ->)%elem_of_replace_relation).
    unfold rel_subj, rel_pred, rel_obj in *. simpl in *.
    assert (Hr' := Hr). apply elem_of_replace_by_of in Hr' as ([[sj0 pr0] ob0] & _ & Hr').
    apply elem_of_replace_relation in Hr' as (sj1 & ob1 & Hsj0 & Hob0 & Heq).
    unfold rel_subj, rel_pred, rel_obj in *. simpl in *. simplify_eq.
    apply (substitute_of_stable _ _ _ _ Hflat Hsj0) in Hsj as ->.
    by apply (substitute_of_stable _ _ _ _ Hflat Hob0) in Hob as ->.
  - intros Hr. exists r. split; [done|].
    apply elem_of_replace_by_of in Hr as ([[sj0 pr0] ob0] & _ & Hr).
    apply elem_of_replace_relation in Hr as (sj & ob & Hsj0 & Hob0 & ->).
    apply elem_of_replace_relation. exists sj, ob.
    unfold rel_subj, rel_pred, rel_obj in *. simpl in *.
    split; [by apply (substitute_of_stable _ _ _ _ Hflat Hsj0)|].
    split; [by apply (substitute_of_stable _ _ _ _ Hflat Hob0)|done].
Qed.

Lemma replace_by_of_idempotent_witness :
  (3, [4], 6) ∈ _replace_by_of people_sentence
                  (_replace_by_of people_sentence [(1, [4], 6)]) ↔
  (3, [4], 6) ∈ _replace_by_of people_sentence [(1, [4], 6)].
Proof.
  apply (replace_by_of_idempotent people_sentence [(1, [4], 6)]).
  intros e1 e2 H1 H2 D1 D2.
  apply list_elem_of_In in H1, H2. simpl in H1, H2.
  intuition (subst; simpl in *; try discriminate; try lia).
Defined.

(** ** From edges to relations, position by position *)

Section positions.
Context (s : Sentence).

Local Abbreviation idx := (build_dep_idx (edges s)).
Local Abbreviation tokens := (token s).

Lemma elem_of_subject_candidates p x :
  x ∈ subject_candidates (edges s) p →
  ∃ e, e ∈ edges s ∧ ((source e = p ∧ target e = x) ∨ (target e = p ∧ source e = x)).
Proof.
  unfold subject_candidates. intros (e & Hx & He)%list_elem_of_bind.
  exists e. split; [done|]. unfold subject_of in Hx.
  repeat destruct (decide _); set_solver.
Qed.

Lemma elem_of_object_candidates p x :
  x ∈ object_candidates (edges s) p →
  ∃ e, e ∈ edges s ∧ ((source e = p ∧ target e = x) ∨ (target e = p ∧ source e = x)).
Proof.
  unfold object_candidates. intros (e & Hx & He)%list_elem_of_bind.
  exists e. split; [done|]. unfold object_of in Hx.
  repeat destruct (decide _); set_solver.
Qed.

Lemma equal_insts_build k :
  equal_insts idx k = k :: dependents (edges s) "conj:and" k.
Proof.
  unfold equal_insts.
  by rewrite (label_indexed s "conj:and" conj_and_indexed), entry_default.
Qed.

Lemma elem_of_expand_relation r r' :
  r' ∈ expand_relation idx r ↔
  ∃ sj' ob', sj' ∈ rel_subj r :: dependents (edges s) "conj:and" (rel_subj r) ∧
             ob' ∈ rel_obj r :: dependents (edges s) "conj:and" (rel_obj r) ∧
             r' = (sj' - 1, (fun i => i - 1) <$> rel_pred r, ob' - 1).
Proof.
  destruct r as [[sj pr] ob]. unfold expand_relation, rel_subj, rel_pred, rel_obj.
  cbn [fst snd]. rewrite !equal_insts_build, list_elem_of_bind. split.
  - intros (sj' & Hr & Hsj). apply list_elem_of_bind in Hr as (ob' & Hr & Hob).
    apply list_elem_of_singleton in Hr. by exists sj', ob'.
  - intros (sj' & ob' & Hsj & Hob & ->). exists sj'. split; [|done].
    apply list_elem_of_bind. exists ob'. split; [|done]. by apply list_elem_of_singleton.
Qed.

Lemma elem_of_extract_by_nmod rels out r' :
  nmod_relations s = Some rels → _extract_by_nmod s = Some out →
  r' ∈ out ↔ ∃ r, r ∈ rels ∧ r' ∈ expand_relation idx r.
Proof.
  unfold _extract_by_nmod. intros -> [= <-].
  unfold expand_relations.
  rewrite elem_of_elements, elem_of_set_add_all, list_elem_of_bind. set_solver.
Qed.

(** Before expansion a relation joins 1-based positions of the sentence. *)
Lemma nmod_relations_in_sentence rels r :
  wf_sentence s → nmod_relations s = Some rels → r ∈ rels →
  in_sentence s (rel_subj r) ∧ Forall (in_sentence s) (rel_pred r) ∧
  in_sentence s (rel_obj r).
Proof.
  intros Hwf Hrels Hr.
  apply (elem_of_nmod_relations s rels r Hrels) in Hr as (e & l & He & Hl & Hr).
  destruct (wf_edge s Hwf e He) as [Hsrc Htgt].
  apply (nmod_edge_inv s e l r Hl) in Hr
    as (_ & _ & _ & c & cw & Hc & Hcw & _ & -> & Hfrom).
  apply (wf_dependents s Hwf) in Hc.
  apply case_word_shape in Hcw as (Hcw & _ & _). rewrite entry_default in Hcw.
  assert (Forall (in_sentence s) cw.1) as Hpred.
  { rewrite Hcw. constructor; [done|]. apply Forall_forall. intros i.
    apply (wf_dependents s Hwf). }
  destruct Hfrom as [[-> ->]|[Hsj Hp]]; [done|].
  split; [by eapply governing_subjects_wf|]. split; [|done].
  destruct Hp as [-> | ->]; [done | by constructor].
Qed.

(** Before expansion a predicate is either one case token whose word is
    not excluded, or at least two tokens; all of them exist. *)
Lemma nmod_relations_pred rels r :
  nmod_relations s = Some rels → r ∈ rels →
  (∀ i, i ∈ rel_pred r → is_Some (py_index tokens (i - 1))) ∧
  ((∃ c t, rel_pred r = [c] ∧ py_index tokens (c - 1) = Some t ∧ word t ∉ exclude) ∨
   (2 <= length (rel_pred r))%nat).
Proof.
  intros Hrels Hr.
  apply (elem_of_nmod_relations s rels r Hrels) in Hr as (e & l & He & Hl & Hr).
  apply (nmod_edge_inv s e l r Hl) in Hr
    as (_ & Hex & Hsrc & c & cw & Hc & Hcw & HX & _ & Hfrom).
  apply case_word_shape in Hcw as (Hhd & Hall & Hshape).
  assert (rel_pred r = cw.1 ∨ rel_pred r = source e :: cw.1) as [-> | ->]
    by (destruct Hfrom as [[_ ?]|[_ ?]]; eauto).
  - split; [done|]. destruct Hshape as [[-> (t & Ht & Hw)]|Hlen]; [|by right].
    left. exists c, t. split; [done|]. split; [done|]. by rewrite <-Hw, HX.
  - split.
    + intros i [->|Hi]%elem_of_cons; [done|]. by apply Hall.
    + right. rewrite Hhd. simpl. lia.
Qed.

Lemma pred_words_shift p :
  (∀ i, i ∈ p → is_Some (py_index tokens (i - 1))) →
  ∃ ws, pred_words (word <$> tokens) ((fun i => i - 1) <$> p) = Some ws ∧
        length ws = length p ∧
        (∀ c t, p = [c] → py_index tokens (c - 1) = Some t → ws = [word t]).
Proof.
  intros Hall. unfold pred_words.
  destruct (mapM (py_index (word <$> tokens)) ((fun i => i - 1) <$> p)) as [ws|] eqn:Hws.
  - exists ws. split; [done|]. split.
    + apply mapM_length in Hws. by rewrite Hws, length_fmap.
    + intros c t -> Ht. simpl in Hws. rewrite py_index_fmap, Ht in Hws.
      simpl in Hws. by injection Hws as <-.
  - exfalso. apply mapM_None in Hws. apply Exists_exists in Hws as (j & Hj & Hnone).
    apply list_elem_of_fmap in Hj as (i & -> & Hi).
    destruct (Hall i Hi) as [t Ht]. by rewrite py_index_fmap, Ht in Hnone.
Qed.

(** An edge whose label is not indexed leaves [dep_idx] as it was. *)
Lemma build_dep_idx_skip es1 e es2 :
  dep e ∉ dep_labels → build_dep_idx (es1 ++ e :: es2) = build_dep_idx (es1 ++ es2).
Proof.
  intros Hd. unfold build_dep_idx. rewrite !foldl_app. simpl. f_equal.
  fold (build_dep_idx es1). unfold dep_idx_step.
  by rewrite build_dep_idx_lookup, decide_False.
Qed.

Lemma nmod_label_not_indexed X : ("nmod:" ++ X)%string ∉ dep_labels.
Proof.
  unfold dep_labels. intros H.
  repeat (apply elem_of_cons in H as [H|H]; [discriminate H|]).
  by apply not_elem_of_nil in H.
Qed.

Lemma excluded_has_no_separator w c :
  w ∈ exclude → (c = "-"%char ∨ c = "_"%char) → str_mem c w = false.
Proof.
  unfold exclude. intros Hw Hc.
  repeat (apply elem_of_cons in Hw as [->|Hw]; [by destruct Hc as [-> | ->]|]).
  by apply not_elem_of_nil in Hw.
Qed.

End positions.

(** ** The prepositional extractor *)

(** C3.  For a matched [nmod:X] edge whose source is not tagged as a
    noun, the subjects are the [acl] entry of the source, or its [nsubj]
    entry when it has no [acl] entry; the source is put in front of the
    recovered predicate exactly when it is the position right before the
    predicate's first token; one relation per subject is appended, each
    with that predicate and with the edge's target as object. *)
Theorem nmod_edge_verb_like (s : Sentence) (e : Edge) (X : string)
    (cases p : list Z) (tt st : Token) :
  dep e = ("nmod:" ++ X)%string → X ∉ exclude →
  py_index (token s) (target e - 1) = Some tt → startswith "NN" (pos tt) = true →
  idx_get (build_dep_idx (edges s)) "case" (target e) = Some cases →
  find_pred (build_dep_idx (edges s)) (token s) X cases = Some (Some p) →
  py_index (token s) (source e - 1) = Some st → startswith "NN" (pos st) = false →
  let acl_entry :=
    source <$> filter (fun a => dep a = "acl" ∧ target a = source e) (edges s) in
  let nsubj_entry :=
    target <$> filter (fun a => dep a = "nsubj" ∧ source a = source e) (edges s) in
  let subjects := match acl_entry with [] => nsubj_entry | _ => acl_entry end in
  let pred := if decide (head p = Some (source e + 1)) then source e :: p else p in
  nmod_edge (build_dep_idx (edges s)) (token s) e =
  Some ((fun sj => (sj, pred, target e)) <$> subjects).
Proof.
  intros Hdep Hex Htt Hnn Hcases Hp Hst Hvb. cbv zeta.
  unfold nmod_edge. rewrite Hdep.
  change (startswith "nmod:" ("nmod:" ++ X)) with true.
  change (str_drop 5 ("nmod:" ++ X)) with X. cbn [negb].
  rewrite decide_False by done. rewrite Htt. cbn [mbind option_bind].
  rewrite Hnn. cbn [negb]. rewrite Hcases, Hp. cbn [mbind option_bind].
  rewrite Hst. cbn [mbind option_bind]. rewrite Hvb.
  rewrite verb_phrase_relations_acl_nsubj. unfold governing_subjects.
  rewrite dependents_acl, (dependents_forward _ "nsubj") by done.
  by destruct (source <$> filter _ (edges s)).
Qed.

Lemma nmod_edge_verb_like_witness :
  nmod_edge (build_dep_idx (edges park_sentence)) (token park_sentence)
            (edg "nmod:in_front_of" 3 8) =
  Some [(2, [3; 4; 5; 6], 8)].
Proof.
  apply (nmod_edge_verb_like park_sentence (edg "nmod:in_front_of" 3 8) "in_front_of"
           [4] [4; 5; 6] (tok "lake" "NN") (tok "parked" "VBD"));
    try (vm_compute; reflexivity).
  intros H%list_elem_of_In. simpl in H. intuition discriminate.
Defined.

(** C4.  Every relation found before expansion is spread over the
    [conj:and] dependents of its subject and of its object: the output
    is, without duplicates, exactly the cross products of subject or
    coordinated subject with object or coordinated object, the predicate
    shared and every position moved to 0-based.  A relation whose
    endpoints govern no [conj:and] edge thus passes through with the index
    conversion only. *)
Theorem extract_by_nmod_expansion (s : Sentence) (rels : list Relation) :
  nmod_relations s = Some rels →
  ∃ out, _extract_by_nmod s = Some out ∧ NoDup out ∧
    ∀ r', r' ∈ out ↔
          ∃ sj p ob sj' ob', (sj, p, ob) ∈ rels ∧
            sj' ∈ sj :: conj_and (edges s) sj ∧ ob' ∈ ob :: conj_and (edges s) ob ∧
            r' = (sj' - 1, (fun i => i - 1) <$> p, ob' - 1).
Proof.
  intros Hrels.
  destruct (_extract_by_nmod s) as [out|] eqn:Hout;
    [|by unfold _extract_by_nmod in Hout; rewrite Hrels in Hout].
  exists out. split; [done|]. split.
  - unfold _extract_by_nmod in Hout. rewrite Hrels in Hout. injection Hout as <-.
    apply NoDup_elements.
  - intros r'. rewrite (elem_of_extract_by_nmod s rels out r' Hrels Hout).
    unfold conj_and. split.
    + intros ([[sj p] ob] & Hr & (sj' & ob' & Hsj & Hob & ->)%elem_of_expand_relation).
      rewrite (dependents_forward _ "conj:and") in Hsj, Hob by done.
      by exists sj, p, ob, sj', ob'.
    + intros (sj & p & ob & sj' & ob' & Hr & Hsj & Hob & ->).
      exists (sj, p, ob). split; [done|]. apply elem_of_expand_relation.
      exists sj', ob'. by rewrite !(dependents_forward _ "conj:and").
Qed.

Lemma extract_by_nmod_expansion_witness :
  ∃ out, _extract_by_nmod park_sentence = Some out ∧ NoDup out ∧
    ∀ r', r' ∈ out ↔
          ∃ sj p ob sj' ob', (sj, p, ob) ∈ [(2, [3; 4; 5; 6], 8)] ∧
            sj' ∈ sj :: conj_and (edges park_sentence) sj ∧
            ob' ∈ ob :: conj_and (edges park_sentence) ob ∧
            r' = (sj' - 1, (fun i => i - 1) <$> p, ob' - 1).
Proof.
  apply (extract_by_nmod_expansion park_sentence [(2, [3; 4; 5; 6], 8)]).
  vm_compute. reflexivity.
Defined.

(** C5.  An [nmod:of] or [nmod:for] edge appends nothing, and no relation
    in the output has a predicate that reads "of" or "for": neither as
    the command line prints it (words joined by "-") nor in the
    underscore-joined form the extractor compares with the label. *)
Theorem extract_by_nmod_excludes (s : Sentence) :
  (∀ e, dep e = "nmod:of" ∨ dep e = "nmod:for" →
        nmod_edge (build_dep_idx (edges s)) (token s) e = Some []) ∧
  (∀ out r, _extract_by_nmod s = Some out → r ∈ out →
     ∃ ws, pred_words (word <$> token s) (rel_pred r) = Some ws ∧
           resolve_pred (word <$> token s) (rel_pred r) = Some (join "-" ws) ∧
           (join "-" ws ∉ exclude) ∧ (join "_" ws ∉ exclude)).
Proof.
  split.
  - intros e [H|H]; unfold nmod_edge; rewrite H; reflexivity.
  - intros out r Hout Hr.
    destruct (nmod_relations s) as [rels|] eqn:Hrels;
      [|by unfold _extract_by_nmod in Hout; rewrite Hrels in Hout].
    destruct (proj1 (elem_of_extract_by_nmod s rels out r Hrels Hout) Hr)
      as (r0 & Hr0 & Hr').
    apply elem_of_expand_relation in Hr' as (sj' & ob' & _ & _ & ->).
    change (rel_pred (sj' - 1, (fun i => i - 1) <$> rel_pred r0, ob' - 1))
      with ((fun i => i - 1) <$> rel_pred r0).
    destruct (nmod_relations_pred s rels r0 Hrels Hr0) as [Hall Hshape].
    destruct (pred_words_shift s (rel_pred r0) Hall) as (ws & Hws & Hlen & Hone).
    exists ws. split; [done|]. split; [by unfold resolve_pred; rewrite Hws|].
    destruct Hshape as [(c & t & Hp & Ht & Hw)|Hlong].
    + rewrite (Hone c t Hp Ht). by split.
    + rewrite <-Hlen in Hlong.
      split; intros Hin.
      * apply (excluded_has_no_separator _ "-"%char) in Hin; [|by left].
        by rewrite (str_mem_join "-"%char ws Hlong) in Hin.
      * apply (excluded_has_no_separator _ "_"%char) in Hin; [|by right].
        by rewrite (str_mem_join "_"%char ws Hlong) in Hin.
Qed.

Lemma extract_by_nmod_excludes_witness :
  ∃ ws, pred_words (word <$> token park_sentence) [2; 3; 4; 5] = Some ws ∧
        resolve_pred (word <$> token park_sentence) [2; 3; 4; 5] = Some (join "-" ws) ∧
        (join "-" ws ∉ exclude) ∧ (join "_" ws ∉ exclude).
Proof.
  apply (proj2 (extract_by_nmod_excludes park_sentence)
           [(1, [2; 3; 4; 5], 7); (1, [2; 3; 4; 5], 10)] (1, [2; 3; 4; 5], 7)).
  - vm_compute. reflexivity.
  - left.
Defined.

Lemma case_word_in_range (s : Sentence) (c : Z) :
  in_sentence s c →
  (∀ m, m ∈ dependents (edges s) "mwe" c → in_sentence s m) →
  is_Some (case_word (build_dep_idx (edges s)) (token s) c).
Proof.
  intros Hc Hmwe. unfold case_word.
  destruct (wf_token s c Hc) as [t ->]. cbn [mbind option_bind].
  destruct (idx_get _ "mwe" c) as [more|] eqn:Hm; [|by eexists].
  rewrite (label_indexed s "mwe" mwe_indexed) in Hm. apply entry_Some in Hm as [-> _].
  destruct (wf_words s (c :: dependents (edges s) "mwe" c)) as [ws Hws].
  { constructor; [done|]. by apply Forall_forall. }
  rewrite Hws. by eexists.
Qed.

(** C6, as stated, fails: in "car near lake" with [nmod:by(car, lake)]
    and a case edge from "lake" to a seventh token, no case token yields
    the word "by", yet looking that token up raises [IndexError] and the
    extractor returns nothing. *)
Lemma nmod_edge_unresolved_raises :
  ¬ (∀ (s : Sentence) (es1 es2 : list Edge) (e : Edge) (X : string),
       edges s = es1 ++ e :: es2 → dep e = ("nmod:" ++ X)%string →
       (∀ c cw, c ∈ dependents (edges s) "case" (target e) →
                case_word (build_dep_idx (edges s)) (token s) c = Some cw → cw.2 ≠ X) →
       nmod_edge (build_dep_idx (edges s)) (token s) e = Some [] ∧
       ∃ rels out,
         nmod_relations s = Some rels ∧
         nmod_relations (without_edge s es1 es2) = Some rels ∧
         _extract_by_nmod s = Some out ∧
         _extract_by_nmod (without_edge s es1 es2) = Some out).
Proof.
  intros Hskip.
  destruct (Hskip gap_sentence [] [edg "case" 3 7] (edg "nmod:by" 1 3) "by")
    as [Hedge _].
  - reflexivity.
  - reflexivity.
  - intros c cw Hc Hcw. vm_compute in Hc.
    apply list_elem_of_singleton in Hc. subst c.
    vm_compute in Hcw. discriminate Hcw.
  - vm_compute in Hedge. discriminate Hedge.
Qed.

(** C6, amended.  Let the target of an [nmod:X] edge, the case tokens
    attached to that target and the [mwe] dependents of those case tokens
    be positions of the sentence.  If none of the case tokens yields the
    word [X], the edge appends nothing and raises nothing, and the
    extractor's outcome, relations or an error raised at another edge, is
    the one for the sentence without that edge; in a well-formed sentence
    that outcome is a result. *)
Theorem nmod_edge_unresolved_skipped (s : Sentence) (es1 es2 : list Edge)
    (e : Edge) (X : string) :
  edges s = es1 ++ e :: es2 → dep e = ("nmod:" ++ X)%string →
  in_sentence s (target e) →
  (∀ c, c ∈ dependents (edges s) "case" (target e) →
        in_sentence s c ∧ ∀ m, m ∈ dependents (edges s) "mwe" c → in_sentence s m) →
  (∀ c cw, c ∈ dependents (edges s) "case" (target e) →
           case_word (build_dep_idx (edges s)) (token s) c = Some cw → cw.2 ≠ X) →
  nmod_edge (build_dep_idx (edges s)) (token s) e = Some [] ∧
  nmod_relations s = nmod_relations (without_edge s es1 es2) ∧
  _extract_by_nmod s = _extract_by_nmod (without_edge s es1 es2) ∧
  (wf_sentence s →
   ∃ rels out,
     nmod_relations s = Some rels ∧ nmod_relations (without_edge s es1 es2) = Some rels ∧
     _extract_by_nmod s = Some out ∧ _extract_by_nmod (without_edge s es1 es2) = Some out).
Proof.
  intros Hes Hdep Htgt Hpos Hcase.
  assert (Hskip : nmod_edge (build_dep_idx (edges s)) (token s) e = Some []).
  { unfold nmod_edge.
    destruct (startswith "nmod:" (dep e)); cbn [negb]; [|done].
    destruct (decide (_ ∈ exclude)); [done|].
    destruct (wf_token s _ Htgt) as [tt ->]. cbn [mbind option_bind].
    destruct (startswith "NN" (pos tt)); cbn [negb]; [|done].
    destruct (idx_get _ "case" (target e)) as [cases|] eqn:Hcases; [|done].
    rewrite (label_indexed s "case" case_indexed) in Hcases.
    apply entry_Some in Hcases as [-> _].
    rewrite (find_pred_no_match s (str_drop 5 (dep e))); [done| |].
    - intros c Hc. destruct (Hpos c Hc). by apply case_word_in_range.
    - rewrite Hdep. apply Hcase. }
  assert (Hidx : build_dep_idx (edges s) = build_dep_idx (es1 ++ es2)).
  { rewrite Hes. apply build_dep_idx_skip. rewrite Hdep. apply nmod_label_not_indexed. }
  assert (Hrels : nmod_relations s = nmod_relations (without_edge s es1 es2)).
  { unfold nmod_relations, without_edge. cbn [token edges].
    rewrite <-Hidx. rewrite Hes at 2. by apply mapM_join_skip. }
  assert (Hout : _extract_by_nmod s = _extract_by_nmod (without_edge s es1 es2)).
  { unfold _extract_by_nmod. rewrite <-Hrels.
    unfold without_edge. cbn [edges]. by rewrite <-Hidx. }
  split; [done|]. split; [done|]. split; [done|].
  intros Hwf. destruct (nmod_relations_wf s Hwf) as [rels Hsome].
  exists rels, (elements (expand_relations (build_dep_idx (edges s)) rels)).
  rewrite <-Hrels, <-Hout. split; [done|]. split; [done|].
  unfold _extract_by_nmod. by rewrite Hsome.
Qed.

Lemma nmod_edge_unresolved_skipped_witness :
  nmod_edge (build_dep_idx (edges shore_sentence)) (token shore_sentence)
            (edg "nmod:next_to" 3 6) = Some [] ∧
  nmod_relations shore_sentence =
    nmod_relations
      (without_edge shore_sentence [edg "nsubj" 3 2] [edg "case" 6 4; edg "det" 9 5]) ∧
  _extract_by_nmod shore_sentence =
    _extract_by_nmod
      (without_edge shore_sentence [edg "nsubj" 3 2] [edg "case" 6 4; edg "det" 9 5]) ∧
  (wf_sentence shore_sentence →
   ∃ rels out,
     nmod_relations shore_sentence = Some rels ∧
     nmod_relations
       (without_edge shore_sentence [edg "nsubj" 3 2] [edg "case" 6 4; edg "det" 9 5])
       = Some rels ∧
     _extract_by_nmod shore_sentence = Some out ∧
     _extract_by_nmod
       (without_edge shore_sentence [edg "nsubj" 3 2] [edg "case" 6 4; edg "det" 9 5])
       = Some out).
Proof.
  apply (nmod_edge_unresolved_skipped shore_sentence [edg "nsubj" 3 2]
           [edg "case" 6 4; edg "det" 9 5] (edg "nmod:next_to" 3 6) "next_to").
  - reflexivity.
  - reflexivity.
  - unfold in_sentence. simpl. lia.
  - intros c Hc. vm_compute in Hc.
    apply list_elem_of_singleton in Hc. subst c. split.
    + unfold in_sentence. simpl. lia.
    + intros m Hm. vm_compute in Hm. by apply not_elem_of_nil in Hm.
  - intros c cw Hc Hcw. vm_compute in Hc.
    apply list_elem_of_singleton in Hc. subst c.
    vm_compute in Hcw. injection Hcw as <-. discriminate.
Defined.

(** ** Positions in the final output *)

Section output_positions.
Context (s : Sentence) (Hwf : wf_sentence s).

Lemma in_sentence_output i : in_sentence s i → in_output (token s) (i - 1).
Proof. unfold in_sentence, in_output. lia. Qed.

Lemma verb_relations_in_output r :
  r ∈ _extract_by_subj_obj s → relation_in_output (token s) r.
Proof.
  intros (p & sj & ob & Hsj & Hob & ->)%elem_of_extract_by_subj_obj.
  apply elem_of_subject_candidates in Hsj as (e1 & He1 & H1).
  apply elem_of_object_candidates in Hob as (e2 & He2 & H2).
  destruct (wf_edge s Hwf e1 He1), (wf_edge s Hwf e2 He2).
  unfold relation_in_output, rel_subj, rel_pred, rel_obj. cbn [fst snd].
  split; [|split]; [|constructor; [|constructor]|];
    apply in_sentence_output; naive_solver.
Qed.

Lemma extract_by_nmod_wf : is_Some (_extract_by_nmod s).
Proof.
  unfold _extract_by_nmod. destruct (nmod_relations_wf s Hwf) as [rels ->]. by eexists.
Qed.

Lemma nmod_output_in_output out r :
  _extract_by_nmod s = Some out → r ∈ out → relation_in_output (token s) r.
Proof.
  intros Hout Hr. destruct (nmod_relations_wf s Hwf) as [rels Hrels].
  destruct (proj1 (elem_of_extract_by_nmod s rels out r Hrels Hout) Hr)
    as (r0 & Hr0 & Hr').
  apply elem_of_expand_relation in Hr' as (sj' & ob' & Hsj & Hob & ->).
  destruct (nmod_relations_in_sentence s rels r0 Hwf Hrels Hr0) as (Hs0 & Hp0 & Ho0).
  unfold relation_in_output, rel_subj, rel_pred, rel_obj. cbn [fst snd].
  split; [|split].
  - apply in_sentence_output.
    apply elem_of_cons in Hsj as [->|Hsj]; [done|]. by eapply wf_dependents.
  - apply Forall_fmap. eapply Forall_impl; [done|]. intros i. apply in_sentence_output.
  - apply in_sentence_output.
    apply elem_of_cons in Hob as [->|Hob]; [done|]. by eapply wf_dependents.
Qed.

Lemma substitute_of_in_output k k' :
  in_output (token s) k → substitute_of (edges s) k k' → in_output (token s) k'.
Proof.
  intros Hk [[_ Hin]|[_ ->]]; [|done].
  apply elem_of_of_dependents in Hin as (e & He & _ & _ & <-).
  apply in_sentence_output. by destruct (wf_edge s Hwf e He).
Qed.

Lemma replace_by_of_in_output relations r' :
  (∀ r, r ∈ relations → relation_in_output (token s) r) →
  r' ∈ _replace_by_of s relations → relation_in_output (token s) r'.
Proof.
  intros Hall (r & Hr & Hr')%elem_of_replace_by_of.
  apply elem_of_replace_relation in Hr' as (sj' & ob' & Hsj & Hob & ->).
  destruct (Hall r Hr) as (Hs & Hp & Ho).
  unfold relation_in_output. change (rel_pred (sj', rel_pred r, ob')) with (rel_pred r).
  split; [|split]; [|done|].
  - by apply (substitute_of_in_output (rel_subj r)).
  - by apply (substitute_of_in_output (rel_obj r)).
Qed.

Lemma extract_sentence_wf : is_Some (extract_sentence s).
Proof.
  unfold extract_sentence. destruct extract_by_nmod_wf as [out ->]. by eexists.
Qed.

End output_positions.

(** A document of well-formed sentences is processed to the end. *)
Lemma extract_wf (ann : list Sentence) :
  Forall wf_sentence ann → is_Some (extract ann).
Proof.
  intros Hann. unfold extract. apply mapM_is_Some.
  eapply Forall_impl; [done|]. intros s Hwf. by apply extract_sentence_wf.
Qed.

(** C8.  For a well-formed sentence the pipeline returns a result, and in
    every relation of it the subject, each token of the predicate and the
    object are valid 0-based positions of the result's token list. *)
Theorem extract_sentence_in_range (s : Sentence) :
  wf_sentence s →
  ∃ res, extract_sentence s = Some res ∧
         length (res_tokens res) = length (token s) ∧
         ∀ r, r ∈ res_relations res → relation_in_output (res_tokens res) r.
Proof.
  intros Hwf. unfold extract_sentence.
  destruct (extract_by_nmod_wf s Hwf) as [by_nmod Hnmod]. rewrite Hnmod.
  eexists. split; [done|]. cbn [res_tokens res_relations].
  split; [by rewrite length_fmap|]. intros r Hr.
  assert (relation_in_output (token s) r) as Hin.
  { eapply (replace_by_of_in_output s Hwf); [|done].
    intros r0 [Hv|Hn]%elem_of_app.
    - by apply verb_relations_in_output.
    - by eapply nmod_output_in_output. }
  unfold relation_in_output, in_output in *. by rewrite length_fmap.
Qed.

Lemma extract_sentence_in_range_witness :
  ∃ res, extract_sentence park_sentence = Some res ∧
         length (res_tokens res) = length (token park_sentence) ∧
         ∀ r, r ∈ res_relations res → relation_in_output (res_tokens res) r.
Proof.
  apply (extract_sentence_in_range park_sentence).
  by_positions.
Defined.

(** C10.  In a well-formed sentence no token lookup leaves the token
    list: the part-of-speech lookups at both ends of every edge, the word
    lookups of every case token and of its [mwe] continuation, and with
    them every edge of the main loop, the extractor and the pipeline
    return a value. *)
Theorem wf_sentence_no_index_error (s : Sentence) :
  wf_sentence s →
  (∀ e, e ∈ edges s →
        (∃ t, token s !! Z.to_nat (target e - 1) = Some t ∧
              py_index (token s) (target e - 1) = Some t) ∧
        (∃ t, token s !! Z.to_nat (source e - 1) = Some t ∧
              py_index (token s) (source e - 1) = Some t)) ∧
  (∀ e c, e ∈ edges s → c ∈ dependents (edges s) "case" (target e) →
          is_Some (case_word (build_dep_idx (edges s)) (token s) c)) ∧
  (∀ e, e ∈ edges s → is_Some (nmod_edge (build_dep_idx (edges s)) (token s) e)) ∧
  is_Some (_extract_by_nmod s) ∧ is_Some (extract_sentence s).
Proof.
  intros Hwf. split; [|split; [|split; [|split]]].
  - intros e He. destruct (wf_edge s Hwf e He) as [Hsrc Htgt].
    destruct (py_index_in_range (token s) _ Hsrc) as [Es [ts Hs]].
    destruct (py_index_in_range (token s) _ Htgt) as [Et [tt Ht]].
    split; [exists tt | exists ts]; split; congruence.
  - intros e c He Hc. apply case_word_wf; [done|]. by eapply wf_dependents.
  - intros e He. by apply nmod_edge_wf.
  - by apply extract_by_nmod_wf.
  - by apply extract_sentence_wf.
Qed.

Lemma wf_sentence_no_index_error_witness :
  is_Some (extract_sentence park_sentence).
Proof.
  apply (wf_sentence_no_index_error park_sentence).
  by_positions.
Defined.

(** ** The dictionaries built by the loops *)

Section dictionaries.

Lemma first_mentions_snoc l p :
  first_mentions (l ++ [p]) =
  if decide (p ∈ first_mentions l) then first_mentions l else first_mentions l ++ [p].
Proof. unfold first_mentions. by rewrite foldl_app. Qed.

Lemma mentioned_preds_snoc es e :
  mentioned_preds (es ++ [e]) =
  mentioned_preds es ++ match classify e with Some (p, _) => [p] | None => [] end.
Proof.
  unfold mentioned_preds. rewrite omap_app. f_equal. simpl.
  by destruct (classify e) as [[p r]|].
Qed.

Lemma build_pred2insts_keys es :
  (build_pred2insts es).*1 = first_mentions (mentioned_preds es).
Proof.
  induction es as [|e es IH] using rev_ind; [done|].
  unfold build_pred2insts. rewrite foldl_app. simpl. fold (build_pred2insts es).
  rewrite mentioned_preds_snoc. unfold pred2insts_step.
  destruct (classify e) as [[p r]|].
  - by rewrite pred2insts_add_keys, first_mentions_snoc, IH.
  - by rewrite app_nil_r.
Qed.

Lemma pred2insts_entries es d :
  pred2insts_inv es d →
  d = (fun p => (p, {| subjs := subject_candidates es p;
                       objs := object_candidates es p |})) <$> d.*1.
Proof.
  intros (_ & Hval & _). induction d as [|[p [sj ob]] d IH]; [done|].
  rewrite !fmap_cons. cbn [fst].
  destruct (Hval p {| subjs := sj; objs := ob |}) as [Hs Ho]; [left|].
  simpl in Hs, Ho. rewrite <-Hs, <-Ho. f_equal.
  apply IH. intros q i Hin. apply Hval. by right.
Qed.

End dictionaries.

(** X1.  After the indexing loop, [dep_idx] has the five labels as its
    only keys; under one of them a token is a key exactly when some edge
    with that label has it as governor, and its entry lists the
    dependents of those edges in edge order ([acl] edges read backwards).
    Other labels, [acl:relcl] among them, are not indexed. *)
Theorem build_dep_idx_entries (es : list Edge) (d : string) (k : Z) :
  (d ∉ dep_labels → build_dep_idx es !! d = None) ∧
  (d ∈ dep_labels →
     ∀ l, idx_get (build_dep_idx es) d k = Some l ↔
          l ≠ [] ∧
          l = if decide (d = "acl")
              then source <$> filter (fun a => dep a = "acl" ∧ target a = k) es
              else target <$> filter (fun a => dep a = d ∧ source a = k) es).
Proof.
  split.
  - intros Hd. by rewrite build_dep_idx_lookup, decide_False.
  - intros Hd l. rewrite idx_get_build, decide_True by done.
    assert (dependents es d k =
            if decide (d = "acl")
            then source <$> filter (fun a => dep a = "acl" ∧ target a = k) es
            else target <$> filter (fun a => dep a = d ∧ source a = k) es) as <-.
    { destruct (decide (d = "acl")) as [->|Hne];
        [apply dependents_acl | by apply dependents_forward]. }
    destruct (dependents es d k) as [|x xs]; simpl; split;
      try (intros [= <-]); try (intros [? ->]); done.
Qed.

(** X2.  After its loop, [of_idx] has the 0-based position [k] as a key
    exactly when an [nmod:of] edge leaves token [k+1], and the entry lists
    the 0-based targets of those edges in edge order. *)
Theorem build_of_idx_entries (es : list Edge) (k : Z) (l : list Z) :
  build_of_idx es !! k = Some l ↔
  l ≠ [] ∧
  l = (fun e => target e - 1) <$>
        filter (fun e => dep e = "nmod:of" ∧ source e = k + 1) es.
Proof.
  rewrite build_of_idx_lookup.
  assert (of_dependents es k =
          (fun e => target e - 1) <$>
            filter (fun e => dep e = "nmod:of" ∧ source e = k + 1) es) as <-.
  { unfold of_dependents. f_equal. apply list_filter_iff.
    intros e. split; intros [? ?]; (split; [done | lia]). }
  destruct (of_dependents es k) as [|x xs]; simpl; split;
    try (intros [= <-]); try (intros [? ->]); done.
Qed.

(** X3.  The verb extractor's list, in full: the predicates come in the
    order in which the edges first mention them, and each is followed by
    its subjects in edge order, each subject paired with the objects in
    edge order.  Nothing is deduplicated. *)
Theorem extract_by_subj_obj_in_order (s : Sentence) :
  _extract_by_subj_obj s =
  p ← first_mentions (mentioned_preds (edges s));
  sj ← subject_candidates (edges s) p;
  ob ← object_candidates (edges s) p;
  [(sj - 1, [p - 1], ob - 1)].
Proof.
  unfold _extract_by_subj_obj.
  rewrite (pred2insts_entries _ _ (build_pred2insts_inv (edges s))) at 1.
  rewrite build_pred2insts_keys.
  generalize (first_mentions (mentioned_preds (edges s))). intros ks.
  induction ks as [|p ks IH]; [done|].
  rewrite fmap_cons, !bind_cons. by rewrite IH.
Qed.

(** ** What the extractors do not read *)

Section frames.

Lemma classify_None_iff e : classify e = None ↔ dep e ∉ verb_labels.
Proof.
  unfold classify, verb_labels. split.
  - repeat destruct (decide _); try done. intros _ Hin.
    repeat (apply elem_of_cons in Hin as [?|Hin]; [done|]).
    by apply not_elem_of_nil in Hin.
  - intros Hn.
    destruct (decide (dep e = "nsubj")) as [H|_]; [exfalso; apply Hn; rewrite H; set_solver|].
    destruct (decide (dep e = "acl")) as [H|_]; [exfalso; apply Hn; rewrite H; set_solver|].
    destruct (decide (dep e = "dobj")) as [H|_]; [exfalso; apply Hn; rewrite H; set_solver|].
    destruct (decide (dep e = "acl:relcl")) as [H|_];
      [exfalso; apply Hn; rewrite H; set_solver|done].
Qed.

Lemma pred2insts_filter es d :
  foldl pred2insts_step d (filter (fun e => dep e ∈ verb_labels) es) =
  foldl pred2insts_step d es.
Proof.
  revert d. induction es as [|e es IH]; intros d; [done|].
  rewrite filter_cons. destruct (decide (dep e ∈ verb_labels)) as [Hin|Hout]; simpl.
  - apply IH.
  - rewrite IH. f_equal. unfold pred2insts_step.
    by rewrite (proj2 (classify_None_iff e) Hout).
Qed.

Lemma dep_idx_step_only_labels idx e :
  only_labels idx → only_labels (dep_idx_step idx e).
Proof.
  intros Hidx d Hd. unfold dep_idx_step.
  destruct (idx !! dep e) as [m|] eqn:Hm; [|by apply Hidx].
  destruct (if decide (dep e = "acl") then _ else _) as [g t].
  rewrite lookup_insert_ne; [by apply Hidx|].
  intros Heq. rewrite Heq, (Hidx d Hd) in Hm. done.
Qed.

Lemma dep_idx_filter idx es :
  only_labels idx →
  foldl dep_idx_step idx (filter nmod_relevant es) = foldl dep_idx_step idx es.
Proof.
  revert idx. induction es as [|e es IH]; intros idx Hidx; [done|].
  rewrite filter_cons. destruct (decide (nmod_relevant e)) as [Hin|Hout]; simpl.
  - apply IH. by apply dep_idx_step_only_labels.
  - rewrite IH by done. f_equal. unfold dep_idx_step.
    rewrite Hidx; [done|]. intros Hl. apply Hout. by right.
Qed.

Lemma mapM_join_filter {A B} (f : A → option (list B)) (P : A → Prop)
    `{!∀ x, Decision (P x)} l :
  (∀ x, x ∈ l → ¬ P x → f x = Some []) →
  mjoin <$> mapM f (filter P l) = mjoin <$> mapM f l.
Proof.
  induction l as [|a l IH]; intros Hskip; [done|].
  rewrite filter_cons.
  assert (IH' : mjoin <$> mapM f (filter P l) = mjoin <$> mapM f l)
    by (apply IH; intros; apply Hskip; [by right | done]).
  destruct (decide (P a)) as [Hin|Hout]; simpl.
  - destruct (f a) as [y|]; simpl; [|done].
    destruct (mapM f (filter P l)), (mapM f l); simpl in *; congruence.
  - rewrite (Hskip a) by (done || left). simpl.
    destruct (mapM f (filter P l)), (mapM f l); simpl in *; congruence.
Qed.

Lemma nmod_edge_other_label idx tokens e :
  startswith "nmod:" (dep e) ≠ true → nmod_edge idx tokens e = Some [].
Proof. unfold nmod_edge. by destruct (startswith "nmod:" (dep e)). Qed.

Lemma py_index_None {A} (l : list A) (i : Z) :
  i < - Z.of_nat (length l) ∨ Z.of_nat (length l) <= i → py_index l i = None.
Proof. intros Hi. unfold py_index. by rewrite !decide_False by lia. Qed.

End frames.

(** X4.  The verb extractor reads nothing but the [nsubj], [acl], [dobj]
    and [acl:relcl] edges: dropping every other edge, and putting any
    token list in place of the sentence's, leaves its list as it is. *)
Theorem extract_by_subj_obj_frame (s : Sentence) (tokens : list Token) :
  _extract_by_subj_obj
    {| token := tokens; edges := filter (fun e => dep e ∈ verb_labels) (edges s) |} =
  _extract_by_subj_obj s.
Proof.
  unfold _extract_by_subj_obj, build_pred2insts. cbn [edges].
  by rewrite pred2insts_filter.
Qed.

(** X5.  The prepositional extractor reads only the edges whose label
    starts with [nmod:] or is one of [case], [mwe], [acl], [nsubj] and
    [conj:and]: dropping every other edge leaves its result, errors
    included, as it is. *)
Theorem extract_by_nmod_frame (s : Sentence) :
  _extract_by_nmod {| token := token s; edges := filter nmod_relevant (edges s) |} =
  _extract_by_nmod s.
Proof.
  assert (Hidx : build_dep_idx (filter nmod_relevant (edges s)) = build_dep_idx (edges s)).
  { unfold build_dep_idx. apply dep_idx_filter.
    intros d Hd. by rewrite dep_idx_init_lookup, decide_False. }
  unfold _extract_by_nmod, nmod_relations. cbn [token edges]. rewrite Hidx.
  rewrite mapM_join_filter; [done|].
  intros e _ Hout. apply nmod_edge_other_label. intros Hn. apply Hout. by left.
Qed.

(** X6.  Nothing catches an [IndexError].  When an [nmod:X] edge with [X]
    outside the exclusion list points at a target position outside the
    token list (also outside the negative positions Python accepts), the
    prepositional extractor fails, with it the sentence, and with the
    sentence every document that contains it. *)
Theorem extract_index_error (s : Sentence) (e : Edge) (ann : list Sentence) :
  e ∈ edges s → startswith "nmod:" (dep e) = true → str_drop 5 (dep e) ∉ exclude →
  (target e - 1 < - Z.of_nat (length (token s)) ∨
   Z.of_nat (length (token s)) <= target e - 1) →
  _extract_by_nmod s = None ∧ extract_sentence s = None ∧
  (s ∈ ann → extract ann = None).
Proof.
  intros He Hn Hex Hout.
  assert (Hedge : nmod_edge (build_dep_idx (edges s)) (token s) e = None).
  { unfold nmod_edge. rewrite Hn. cbn [negb]. rewrite decide_False by done.
    by rewrite (py_index_None (token s) (target e - 1)). }
  assert (Hnmod : _extract_by_nmod s = None).
  { unfold _extract_by_nmod, nmod_relations.
    rewrite (proj2 (mapM_None _ _)); [done|]. apply Exists_exists. by exists e. }
  assert (Hsent : extract_sentence s = None)
    by (unfold extract_sentence; by rewrite Hnmod).
  split; [done|]. split; [done|]. intros Hs. unfold extract.
  apply mapM_None, Exists_exists. by exists s.
Qed.

Lemma extract_index_error_witness :
  _extract_by_nmod stray_sentence = None ∧ extract_sentence stray_sentence = None ∧
  (stray_sentence ∈ [cat_sentence; stray_sentence] →
   extract [cat_sentence; stray_sentence] = None).
Proof.
  apply (extract_index_error stray_sentence (edg "nmod:near" 1 5)).
  - right. left.
  - reflexivity.
  - intros H%list_elem_of_In. simpl in H. intuition discriminate.
  - right. vm_compute. discriminate.
Defined.

(** ** Where the prepositional relations come from *)

Section origins.
Context (s : Sentence).

Local Abbreviation idx := (build_dep_idx (edges s)).
Local Abbreviation tokens := (token s).

Lemma startswith_drop p d :
  startswith p d = true → d = (p ++ str_drop (String.length p) d)%string.
Proof.
  revert d. induction p as [|a p IH]; intros d; [done|].
  destruct d as [|b d]; simpl; [done|].
  destruct (decide (a = b)) as [->|]; [|done]. intros H.
  transitivity (String b (p ++ str_drop (String.length p) d)%string);
    [f_equal; by apply IH | reflexivity].
Qed.

(** The word compared with the label is the underscore-joined words of
    the candidate predicate. *)
Lemma case_word_spells c cw :
  case_word idx tokens c = Some cw →
  ∃ ws, mapM (fun i => word <$> py_index tokens (i - 1)) cw.1 = Some ws ∧
        cw.2 = join "_" ws.
Proof.
  unfold case_word. destruct (py_index tokens (c - 1)) as [t|] eqn:Ht; [|done].
  cbn [mbind option_bind].
  destruct (idx_get idx "mwe" c) as [more|].
  - destruct (mapM _ (c :: more)) as [ws|] eqn:Hws; [|done].
    cbn [mbind option_bind]. intros [= <-]. by exists ws.
  - intros [= <-]. exists [word t]. split; [|done]. simpl. by rewrite Ht.
Qed.

Lemma pred_words_shifted p :
  pred_words (word <$> tokens) ((fun i => i - 1) <$> p) =
  mapM (fun i => word <$> py_index tokens (i - 1)) p.
Proof.
  unfold pred_words. induction p as [|i p IH]; [done|].
  rewrite fmap_cons. simpl. by rewrite py_index_fmap, IH.
Qed.

(** Everything the main loop has checked before it appends a relation. *)
Lemma nmod_edge_origin e l r :
  nmod_edge idx tokens e = Some l → r ∈ l →
  ∃ tt st c cw,
    startswith "nmod:" (dep e) = true ∧ (str_drop 5 (dep e) ∉ exclude) ∧
    py_index tokens (target e - 1) = Some tt ∧ startswith "NN" (pos tt) = true ∧
    c ∈ dependents (edges s) "case" (target e) ∧
    case_word idx tokens c = Some cw ∧ cw.2 = str_drop 5 (dep e) ∧
    py_index tokens (source e - 1) = Some st ∧ rel_obj r = target e ∧
    ((startswith "NN" (pos st) = true ∧ rel_subj r = source e ∧ rel_pred r = cw.1) ∨
     (startswith "NN" (pos st) = false ∧
      rel_subj r ∈ governing_subjects (edges s) (source e) ∧
      rel_pred r = if decide (head cw.1 = Some (source e + 1))
                   then source e :: cw.1 else cw.1)).
Proof.
  unfold nmod_edge.
  destruct (startswith "nmod:" (dep e)); cbn [negb]; [|by intros [= <-] ?%not_elem_of_nil].
  destruct (decide (_ ∈ exclude)) as [|Hex]; [by intros [= <-] ?%not_elem_of_nil|].
  destruct (py_index tokens (target e - 1)) as [tt|]; cbn [mbind option_bind]; [|done].
  destruct (startswith "NN" (pos tt)) eqn:Hnn; cbn [negb];
    [|by intros [= <-] ?%not_elem_of_nil].
  rewrite (label_indexed s "case" case_indexed).
  destruct (entry _) as [cases|] eqn:Hcases; [|by intros [= <-] ?%not_elem_of_nil].
  apply entry_Some in Hcases as [-> _].
  destruct (find_pred _ _ _ _) as [[p|]|] eqn:Hp; cbn [mbind option_bind];
    [|by intros [= <-] ?%not_elem_of_nil|done].
  apply find_pred_inv in Hp as (c & cw & Hc & Hcw & <- & HX).
  destruct (py_index tokens (source e - 1)) as [st|]; cbn [mbind option_bind]; [|done].
  intros Hl Hr. exists tt, st, c, cw. do 8 (split; [done|]).
  destruct (startswith "NN" (pos st)) eqn:Hst; simplify_eq.
  - apply list_elem_of_singleton in Hr as ->. split; [done|]. by left.
  - rewrite verb_phrase_relations_acl_nsubj in Hr.
    apply list_elem_of_fmap in Hr as (sj & -> & Hsj). split; [done|]. by right.
Qed.

End origins.

Lemma extract_by_nmod_origin (s : Sentence) (out : list Relation) (r : Relation) :
  _extract_by_nmod s = Some out → r ∈ out →
  ∃ e l r0 sj' ob',
    e ∈ edges s ∧ nmod_edge (build_dep_idx (edges s)) (token s) e = Some l ∧ r0 ∈ l ∧
    sj' ∈ rel_subj r0 :: conj_and (edges s) (rel_subj r0) ∧
    ob' ∈ rel_obj r0 :: conj_and (edges s) (rel_obj r0) ∧
    r = (sj' - 1, (fun i => i - 1) <$> rel_pred r0, ob' - 1).
Proof.
  intros Hout Hr.
  destruct (nmod_relations s) as [rels|] eqn:Hrels;
    [|by unfold _extract_by_nmod in Hout; rewrite Hrels in Hout].
  destruct (proj1 (elem_of_extract_by_nmod s rels out r Hrels Hout) Hr)
    as (r0 & Hr0 & Hr').
  apply elem_of_expand_relation in Hr' as (sj' & ob' & Hsj & Hob & ->).
  rewrite !(dependents_forward _ "conj:and") in Hsj, Hob by done.
  apply (elem_of_nmod_relations s rels r0 Hrels) in Hr0 as (e & l & He & Hl & Hr0).
  by exists e, l, r0, sj', ob'.
Qed.

(** X7.  Every relation of the prepositional extractor goes back to one
    [nmod:X] edge with [X] not excluded and a noun-tagged target.  Its
    object is that target or a token coordinated with it by [conj:and];
    its subject is the edge's source when the source is noun-tagged, and
    one of the source's governing subjects ([acl] entry, else [nsubj]
    entry) otherwise, or a token coordinated with that.  Coordinated
    tokens are taken over without a look at their tags. *)
Theorem extract_by_nmod_provenance (s : Sentence) (out : list Relation) (r : Relation) :
  _extract_by_nmod s = Some out → r ∈ out →
  ∃ e sj tt st,
    e ∈ edges s ∧ startswith "nmod:" (dep e) = true ∧ (str_drop 5 (dep e) ∉ exclude) ∧
    py_index (token s) (target e - 1) = Some tt ∧ startswith "NN" (pos tt) = true ∧
    py_index (token s) (source e - 1) = Some st ∧
    (if startswith "NN" (pos st) then sj = source e
     else sj ∈ governing_subjects (edges s) (source e)) ∧
    (rel_subj r = sj - 1 ∨ rel_subj r + 1 ∈ conj_and (edges s) sj) ∧
    (rel_obj r = target e - 1 ∨ rel_obj r + 1 ∈ conj_and (edges s) (target e)).
Proof.
  intros Hout Hr.
  destruct (extract_by_nmod_origin s out r Hout Hr)
    as (e & l & r0 & sj' & ob' & He & Hl & Hr0 & Hsj & Hob & ->).
  destruct (nmod_edge_origin s e l r0 Hl Hr0)
    as (tt & st & c & cw & Hn & Hex & Htt & Hnn & _ & _ & _ & Hst & Hobj & Hfrom).
  exists e, (rel_subj r0), tt, st. do 6 (split; [done|]).
  destruct r0 as [[s0 p0] o0]. unfold rel_subj, rel_pred, rel_obj in *.
  cbn [fst snd] in *. subst o0.
  split; [|split].
  - destruct Hfrom as [(-> & ? & _)|(-> & ? & _)]; done.
  - apply elem_of_cons in Hsj as [->|Hsj]; [by left|].
    right. by replace (sj' - 1 + 1) with sj' by lia.
  - apply elem_of_cons in Hob as [->|Hob]; [by left|].
    right. by replace (ob' - 1 + 1) with ob' by lia.
Qed.

Lemma extract_by_nmod_provenance_witness :
  ∃ e sj tt st,
    e ∈ edges park_sentence ∧ startswith "nmod:" (dep e) = true ∧
    (str_drop 5 (dep e) ∉ exclude) ∧
    py_index (token park_sentence) (target e - 1) = Some tt ∧
    startswith "NN" (pos tt) = true ∧
    py_index (token park_sentence) (source e - 1) = Some st ∧
    (if startswith "NN" (pos st) then sj = source e
     else sj ∈ governing_subjects (edges park_sentence) (source e)) ∧
    (1 = sj - 1 ∨ 1 + 1 ∈ conj_and (edges park_sentence) sj) ∧
    (10 = target e - 1 ∨ 10 + 1 ∈ conj_and (edges park_sentence) (target e)).
Proof.
  apply (extract_by_nmod_provenance park_sentence
           [(1, [2; 3; 4; 5], 7); (1, [2; 3; 4; 5], 10)] (1, [2; 3; 4; 5], 10)).
  - vm_compute. reflexivity.
  - right. left.
Defined.

(** X8.  For a matched [nmod:X] edge whose source is noun-tagged exactly
    one relation is appended: source, recovered preposition, target.  The
    source is never put in front of the predicate, and the [acl] and
    [nsubj] entries are not consulted. *)
Theorem nmod_edge_noun_source (s : Sentence) (e : Edge) (X : string)
    (cases p : list Z) (tt st : Token) :
  dep e = ("nmod:" ++ X)%string → X ∉ exclude →
  py_index (token s) (target e - 1) = Some tt → startswith "NN" (pos tt) = true →
  idx_get (build_dep_idx (edges s)) "case" (target e) = Some cases →
  find_pred (build_dep_idx (edges s)) (token s) X cases = Some (Some p) →
  py_index (token s) (source e - 1) = Some st → startswith "NN" (pos st) = true →
  nmod_edge (build_dep_idx (edges s)) (token s) e = Some [(source e, p, target e)].
Proof.
  intros Hdep Hex Htt Hnn Hcases Hp Hst Hsn.
  unfold nmod_edge. rewrite Hdep.
  change (startswith "nmod:" ("nmod:" ++ X)) with true.
  change (str_drop 5 ("nmod:" ++ X)) with X. cbn [negb].
  rewrite decide_False by done. rewrite Htt. cbn [mbind option_bind].
  rewrite Hnn. cbn [negb]. rewrite Hcases, Hp. cbn [mbind option_bind].
  rewrite Hst. cbn [mbind option_bind]. by rewrite Hsn.
Qed.

Lemma nmod_edge_noun_source_witness :
  nmod_edge (build_dep_idx (edges bench_sentence)) (token bench_sentence)
            (edg "nmod:under" 2 5) = Some [(2, [3], 5)].
Proof.
  apply (nmod_edge_noun_source bench_sentence (edg "nmod:under" 2 5) "under"
           [3] [3] (tok "tree" "NN") (tok "bench" "NN"));
    try (vm_compute; reflexivity).
  intros H%list_elem_of_In. simpl in H. intuition discriminate.
Defined.

(** X9.  A predicate of the prepositional extractor spells the label of
    an edge of the sentence: after an optional leading source token,
    which then is the token right before, the words at its positions,
    joined by underscores, are the [X] of an [nmod:X] edge. *)
Theorem extract_by_nmod_pred_spells_label (s : Sentence) (out : list Relation)
    (r : Relation) :
  _extract_by_nmod s = Some out → r ∈ out →
  ∃ e p ws,
    e ∈ edges s ∧ p ≠ [] ∧
    (rel_pred r = p ∨ (rel_pred r = (source e - 1) :: p ∧ head p = Some (source e))) ∧
    pred_words (word <$> token s) p = Some ws ∧
    dep e = ("nmod:" ++ join "_" ws)%string.
Proof.
  intros Hout Hr.
  destruct (extract_by_nmod_origin s out r Hout Hr)
    as (e & l & r0 & sj' & ob' & He & Hl & Hr0 & _ & _ & ->).
  destruct (nmod_edge_origin s e l r0 Hl Hr0)
    as (tt & st & c & cw & Hn & _ & _ & _ & _ & Hcw & HX & _ & _ & Hfrom).
  destruct (case_word_spells s c cw Hcw) as (ws & Hws & Hjoin).
  apply case_word_shape in Hcw as (Hhd & _ & _).
  exists e, ((fun i => i - 1) <$> cw.1), ws. split; [done|].
  split; [by rewrite Hhd|].
  change (rel_pred (sj' - 1, (fun i => i - 1) <$> rel_pred r0, ob' - 1))
    with ((fun i => i - 1) <$> rel_pred r0).
  split; [|split].
  - destruct Hfrom as [(_ & _ & ->)|(_ & _ & ->)]; [by left|].
    destruct (decide (head cw.1 = Some (source e + 1))) as [Hadj|]; [|by left].
    right. split; [done|]. rewrite Hhd in Hadj |- *. simpl in *.
    injection Hadj as ->. f_equal. lia.
  - by rewrite pred_words_shifted.
  - rewrite <-Hjoin, HX. by apply (startswith_drop "nmod:").
Qed.

Lemma extract_by_nmod_pred_spells_label_witness :
  ∃ e p ws,
    e ∈ edges park_sentence ∧ p ≠ [] ∧
    ([2; 3; 4; 5] = p ∨ ([2; 3; 4; 5] = (source e - 1) :: p ∧ head p = Some (source e))) ∧
    pred_words (word <$> token park_sentence) p = Some ws ∧
    dep e = ("nmod:" ++ join "_" ws)%string.
Proof.
  apply (extract_by_nmod_pred_spells_label park_sentence
           [(1, [2; 3; 4; 5], 7); (1, [2; 3; 4; 5], 10)] (1, [2; 3; 4; 5], 7)).
  - vm_compute. reflexivity.
  - left.
Defined.

(** ** The rewriter, relation by relation *)

Section rewriter_more.
Context (s : Sentence).

Lemma substitute_of_no_of k k' :
  (∀ e, e ∈ edges s → dep e ≠ "nmod:of") →
  substitute_of (edges s) k k' ↔ k' = k.
Proof.
  intros Hno. unfold substitute_of.
  assert (¬ of_governor (edges s) k) as Hng
    by (intros (e & He & Hd & _); by apply (Hno e)).
  intuition congruence.
Qed.

Lemma elem_of_replace_by_of_no_of relations r :
  (∀ e, e ∈ edges s → dep e ≠ "nmod:of") →
  r ∈ _replace_by_of s relations ↔ r ∈ relations.
Proof.
  intros Hno. rewrite elem_of_replace_by_of. split.
  - intros ([[sj pr] ob] & Hr & (sj' & ob' & Hsj & Hob & ->)%elem_of_replace_relation).
    unfold rel_subj, rel_pred, rel_obj in *. cbn [fst snd] in *.
    apply (substitute_of_no_of _ _ Hno) in Hsj as ->.
    by apply (substitute_of_no_of _ _ Hno) in Hob as ->.
  - intros Hr. exists r. split; [done|]. apply elem_of_replace_relation.
    destruct r as [[sj pr] ob]. exists sj, ob.
    unfold rel_subj, rel_pred, rel_obj. cbn [fst snd].
    by rewrite !(substitute_of_no_of _ _ Hno).
Qed.

Lemma substitute_of_not_governor k k' :
  of_flat (edges s) → substitute_of (edges s) k k' → ¬ of_governor (edges s) k'.
Proof.
  intros Hflat [[_ Hin]|[Hng ->]]; [|done].
  apply elem_of_of_dependents in Hin as (e1 & He1 & Hd1 & _ & Ht).
  intros (e2 & He2 & Hd2 & Hs). apply (Hflat e1 e2); try done. lia.
Qed.

End rewriter_more.

(** X10.  Without [nmod:of] edges the rewriter changes no relation: it
    returns the relations it was given, each once. *)
Theorem replace_by_of_without_of (s : Sentence) (relations : list Relation) :
  (∀ e, e ∈ edges s → dep e ≠ "nmod:of") →
  NoDup (_replace_by_of s relations) ∧
  ∀ r, r ∈ _replace_by_of s relations ↔ r ∈ relations.
Proof.
  intros Hno. split; [apply NoDup_elements|].
  intros r. by apply elem_of_replace_by_of_no_of.
Qed.

Lemma replace_by_of_without_of_witness :
  NoDup (_replace_by_of cat_sentence [(1, [2], 4); (1, [2], 4)]) ∧
  ∀ r, r ∈ _replace_by_of cat_sentence [(1, [2], 4); (1, [2], 4)] ↔
       r ∈ [(1, [2], 4); (1, [2], 4)].
Proof.
  apply (replace_by_of_without_of cat_sentence [(1, [2], 4); (1, [2], 4)]).
  intros e He%list_elem_of_In. simpl in He.
  intuition (subst; discriminate).
Defined.

(** X11.  The rewriter works relation by relation: what it returns for a
    list is what it returns for the list's relations one at a time, so
    the result for a concatenation is the union of the results and the
    order and repetitions of the input play no part in which relations
    come out. *)
Theorem replace_by_of_pointwise (s : Sentence) :
  (∀ relations r', r' ∈ _replace_by_of s relations ↔
                   ∃ r, r ∈ relations ∧ r' ∈ _replace_by_of s [r]) ∧
  (∀ rels1 rels2 r', r' ∈ _replace_by_of s (rels1 ++ rels2) ↔
                     r' ∈ _replace_by_of s rels1 ∨ r' ∈ _replace_by_of s rels2) ∧
  (∀ rels1 rels2, (∀ r, r ∈ rels1 ↔ r ∈ rels2) →
                  ∀ r', r' ∈ _replace_by_of s rels1 ↔ r' ∈ _replace_by_of s rels2).
Proof.
  split; [|split].
  - intros relations r'. rewrite elem_of_replace_by_of.
    split; intros (r & Hr & Hr'); exists r; (split; [done|]).
    + apply elem_of_replace_by_of. exists r. split; [left | done].
    + apply elem_of_replace_by_of in Hr' as (r1 & ->%list_elem_of_singleton & Hr').
      done.
  - intros rels1 rels2 r'. rewrite !elem_of_replace_by_of. split.
    + intros (r & [Hr|Hr]%elem_of_app & Hr'); [left | right]; by exists r.
    + intros [(r & Hr & Hr')|(r & Hr & Hr')]; exists r; (split; [|done]);
        apply elem_of_app; [by left | by right].
  - intros rels1 rels2 Heq r'. rewrite !elem_of_replace_by_of.
    split; intros (r & Hr & Hr'); exists r; (split; [by apply Heq | done]).
Qed.

(** X12.  When no [nmod:of] dependent governs an [nmod:of] edge itself,
    the rewriter's output is free of [nmod:of] governors: no subject and
    no object of it is a key of the index any more. *)
Theorem replace_by_of_normal_form (s : Sentence) (relations : list Relation)
    (r : Relation) :
  of_flat (edges s) → r ∈ _replace_by_of s relations →
  ¬ of_governor (edges s) (rel_subj r) ∧ ¬ of_governor (edges s) (rel_obj r).
Proof.
  intros Hflat (r0 & _ & Hr)%elem_of_replace_by_of.
  apply elem_of_replace_relation in Hr as (sj' & ob' & Hsj & Hob & ->).
  unfold rel_subj at 1, rel_obj at 1. cbn [fst snd].
  split; by eapply substitute_of_not_governor.
Qed.

Lemma replace_by_of_normal_form_witness :
  ¬ of_governor (edges people_sentence) (rel_subj (3, [4], 6)) ∧
  ¬ of_governor (edges people_sentence) (rel_obj (3, [4], 6)).
Proof.
  apply (replace_by_of_normal_form people_sentence [(1, [4], 6)]).
  - intros e1 e2 H1 H2 D1 D2.
    apply list_elem_of_In in H1, H2. simpl in H1, H2.
    intuition (subst; simpl in *; try discriminate; try lia).
  - rewrite people_sentence_once. left.
Defined.

(** ** The pipeline and the report *)

Section pipeline.
Context (s : Sentence).

Lemma mapM_join_nothing {A B} (f : A → option (list B)) l :
  (∀ x, x ∈ l → f x = Some []) → mjoin <$> mapM f l = Some [].
Proof.
  induction l as [|a l IH]; intros Hall; [done|]. simpl.
  rewrite (Hall a) by left. simpl.
  assert (mjoin <$> mapM f l = Some []) as IH' by (apply IH; intros; apply Hall; by right).
  destruct (mapM f l); simpl in *; congruence.
Qed.

Lemma extract_by_nmod_nothing :
  (∀ e, e ∈ edges s → startswith "nmod:" (dep e) = false) →
  _extract_by_nmod s = Some [].
Proof.
  intros Hno. unfold _extract_by_nmod, nmod_relations.
  rewrite mapM_join_nothing; [done|].
  intros e He. apply nmod_edge_other_label. by rewrite (Hno e He).
Qed.

Lemma extract_by_nmod_pred_nonempty out r :
  _extract_by_nmod s = Some out → r ∈ out → rel_pred r ≠ [].
Proof.
  intros Hout Hr.
  destruct (extract_by_nmod_origin s out r Hout Hr)
    as (e & l & r0 & sj' & ob' & He & Hl & Hr0 & _ & _ & ->).
  destruct (nmod_edge_origin s e l r0 Hl Hr0)
    as (tt & st & c & cw & _ & _ & _ & _ & _ & Hcw & _ & _ & _ & Hfrom).
  apply case_word_shape in Hcw as (Hhd & _ & _).
  change (rel_pred (sj' - 1, (fun i => i - 1) <$> rel_pred r0, ob' - 1))
    with ((fun i => i - 1) <$> rel_pred r0).
  destruct Hfrom as [(_ & _ & ->)|(_ & _ & ->)]; [by rewrite Hhd|].
  destruct (decide _); [done | by rewrite Hhd].
Qed.

(** In a well-formed sentence the final relations stay inside the result's
    token list. *)
Lemma extract_sentence_positions res r :
  wf_sentence s → extract_sentence s = Some res → r ∈ res_relations res →
  relation_in_output (res_tokens res) r.
Proof.
  intros Hwf Hres Hr. unfold extract_sentence in Hres.
  destruct (_extract_by_nmod s) as [by_nmod|] eqn:Hnmod; [|done].
  injection Hres as <-. cbn [res_tokens res_relations] in *.
  assert (relation_in_output (token s) r) as Hin.
  { eapply (replace_by_of_in_output s Hwf); [|done].
    intros r0 [Hv|Hn]%elem_of_app.
    - by apply verb_relations_in_output.
    - by eapply nmod_output_in_output. }
  unfold relation_in_output, in_output in *. by rewrite length_fmap.
Qed.

End pipeline.

Lemma py_index_in_output {A} (l : list A) (i : Z) :
  in_output l i → ∃ x, py_index l i = Some x ∧ l !! Z.to_nat i = Some x.
Proof.
  unfold in_output. intros Hi. unfold py_index. rewrite decide_True by lia.
  destruct (lookup_lt_is_Some_2 l (Z.to_nat i)) as [x Hx]; [lia|]. by exists x.
Qed.

Lemma resolve_relation_in_output (tokens : list string) (r : Relation) :
  relation_in_output tokens r →
  ∃ ws wp wo, resolve_relation tokens r = Some (ws, wp, wo) ∧
              tokens !! Z.to_nat (rel_subj r) = Some ws ∧
              resolve_pred tokens (rel_pred r) = Some wp ∧
              tokens !! Z.to_nat (rel_obj r) = Some wo.
Proof.
  intros (Hs & Hp & Ho). unfold resolve_relation.
  destruct (py_index_in_output tokens _ Hs) as (ws & -> & Hws).
  destruct (py_index_in_output tokens _ Ho) as (wo & -> & Hwo).
  assert (is_Some (pred_words tokens (rel_pred r))) as [pw Hpw].
  { unfold pred_words. apply mapM_is_Some. eapply Forall_impl; [done|].
    intros i Hi. simpl. destruct (py_index_in_output tokens i Hi) as (x & -> & _).
    by eexists. }
  unfold resolve_pred. rewrite Hpw. simpl. by exists ws, (join "-" pw), wo.
Qed.

(** X13.  What the pipeline returns for a sentence: the sentence's words
    as tokens and, without repetition, exactly the relations obtained from
    the verb relations and the prepositional relations by the one-step
    [nmod:of] substitution of subject and object; every predicate keeps
    its tokens and has at least one. *)
Theorem extract_sentence_relations (s : Sentence) (res : SentenceResult) :
  extract_sentence s = Some res →
  res_tokens res = word <$> token s ∧ NoDup (res_relations res) ∧
  (∀ r, r ∈ res_relations res → rel_pred r ≠ []) ∧
  ∀ r, r ∈ res_relations res ↔
       ∃ r0, (r0 ∈ _extract_by_subj_obj s ∨
              ∃ out, _extract_by_nmod s = Some out ∧ r0 ∈ out) ∧
             substitute_of (edges s) (rel_subj r0) (rel_subj r) ∧
             rel_pred r = rel_pred r0 ∧
             substitute_of (edges s) (rel_obj r0) (rel_obj r).
Proof.
  intros Hres. unfold extract_sentence in Hres.
  destruct (_extract_by_nmod s) as [by_nmod|] eqn:Hnmod; [|done].
  injection Hres as <-. cbn [res_tokens res_relations].
  assert (Hchar : ∀ r, r ∈ _replace_by_of s (_extract_by_subj_obj s ++ by_nmod) ↔
       ∃ r0, (r0 ∈ _extract_by_subj_obj s ∨
              ∃ out, Some by_nmod = Some out ∧ r0 ∈ out) ∧
             substitute_of (edges s) (rel_subj r0) (rel_subj r) ∧
             rel_pred r = rel_pred r0 ∧
             substitute_of (edges s) (rel_obj r0) (rel_obj r)).
  { intros r. rewrite elem_of_replace_by_of. split.
    - intros (r0 & Hr0 & (sj' & ob' & Hsj & Hob & ->)%elem_of_replace_relation).
      exists r0. split; [|done].
      apply elem_of_app in Hr0 as [?|?]; [by left | right; by exists by_nmod].
    - intros (r0 & Hr0 & Hsj & Hp & Hob). exists r0. split.
      + apply elem_of_app. destruct Hr0 as [?|(out & [= <-] & ?)]; [by left | by right].
      + apply elem_of_replace_relation. exists (rel_subj r), (rel_obj r).
        split; [done|]. split; [done|]. rewrite <-Hp. by destruct r as [[? ?] ?]. }
  split; [done|]. split; [apply NoDup_elements|]. split; [|done].
  intros r (r0 & Hr0 & _ & -> & _)%Hchar.
  destruct Hr0 as [Hv|(out & [= <-] & Hn)].
  - by apply elem_of_extract_by_subj_obj in Hv as (p & sj & ob & _ & _ & ->).
  - by eapply extract_by_nmod_pred_nonempty.
Qed.

Lemma extract_sentence_relations_witness :
  ∃ res, extract_sentence group_sentence = Some res ∧
         res_tokens res = word <$> token group_sentence ∧
         (3, [6], 8) ∈ res_relations res.
Proof.
  destruct (extract_sentence group_sentence) as [res|] eqn:Hres; [|by vm_compute in Hres].
  exists res. split; [done|].
  destruct (extract_sentence_relations group_sentence res Hres) as (Htok & _ & _ & Hchar).
  split; [done|]. apply Hchar. exists (1, [6], 8). split; [left; vm_compute; left|].
  split; [|split; [done|]].
  - left. split.
    + exists (edg "nmod:of" 2 4). split; [|done]. do 2 right. left.
    + vm_compute. left.
  - right. split; [|done]. intros (e & He%list_elem_of_In & Hd & Hs).
    simpl in He. intuition (subst; simpl in *; try discriminate; try lia).
Defined.

(** X14.  A sentence without [nmod:] edges gets exactly its verb
    relations, each once: the prepositional extractor contributes
    nothing and looks no token up, and the rewriter has nothing to
    rewrite.  In particular [conj:and] edges alone add no relation. *)
Theorem extract_sentence_verbs_only (s : Sentence) :
  (∀ e, e ∈ edges s → startswith "nmod:" (dep e) = false) →
  _extract_by_nmod s = Some [] ∧
  ∃ res, extract_sentence s = Some res ∧ NoDup (res_relations res) ∧
         ∀ r, r ∈ res_relations res ↔ r ∈ _extract_by_subj_obj s.
Proof.
  intros Hno. assert (Hnmod := extract_by_nmod_nothing s Hno).
  split; [done|]. unfold extract_sentence. rewrite Hnmod. cbn [mbind option_bind].
  eexists. split; [done|]. cbn [res_relations]. split; [apply NoDup_elements|].
  intros r. rewrite app_nil_r. apply elem_of_replace_by_of_no_of.
  intros e He Hof. specialize (Hno e He). by rewrite Hof in Hno.
Qed.

Lemma extract_sentence_verbs_only_witness :
  _extract_by_nmod pack_sentence = Some [] ∧
  ∃ res, extract_sentence pack_sentence = Some res ∧ NoDup (res_relations res) ∧
         ∀ r, r ∈ res_relations res ↔ r ∈ _extract_by_subj_obj pack_sentence.
Proof.
  apply (extract_sentence_verbs_only pack_sentence).
  intros e He%list_elem_of_In. simpl in He.
  intuition (subst; reflexivity).
Defined.

(** X15.  For a well-formed sentence the command line's report runs
    through: every relation of the result is printed with a word for its
    subject, its predicate and its object, and the subject and object
    words are the tokens at the relation's positions, counted from the
    start of the list. *)
Theorem report_well_formed (s : Sentence) :
  wf_sentence s →
  ∃ res lines,
    extract_sentence s = Some res ∧ report res = Some lines ∧
    lines.*1 = res_relations res ∧
    ∀ r w, (r, w) ∈ lines →
           resolve_relation (res_tokens res) r = Some w ∧
           res_tokens res !! Z.to_nat (rel_subj r) = Some w.1.1 ∧
           resolve_pred (res_tokens res) (rel_pred r) = Some w.1.2 ∧
           res_tokens res !! Z.to_nat (rel_obj r) = Some w.2.
Proof.
  intros Hwf. destruct (extract_sentence_wf s Hwf) as [res Hres].
  assert (Hpos := extract_sentence_positions s res). unfold report.
  destruct (mapM (fun r => (fun w => (r, w)) <$> resolve_relation (res_tokens res) r)
                 (res_relations res)) as [lines|] eqn:Hlines.
  - exists res, lines. split; [done|]. split; [done|].
    apply mapM_Some in Hlines. split.
    + clear Hpos. induction Hlines as [|r rw rs lines Hr _ IH]; [done|].
      rewrite fmap_cons, IH. f_equal.
      apply fmap_Some in Hr as (w & _ & ->). done.
    + intros r w Hin.
      destruct (Forall2_elem_of_r _ _ _ _ Hlines Hin) as (r' & Hr' & Hrw).
      apply fmap_Some in Hrw as (w' & Hw' & Heq).
      injection Heq as Hr_eq Hw_eq. subst r' w'.
      destruct (resolve_relation_in_output _ _ (Hpos r Hwf Hres Hr'))
        as (ws & wp & wo & Hw & ? & ? & ?).
      rewrite Hw in Hw'. injection Hw' as <-. done.
  - exfalso. apply mapM_None in Hlines. apply Exists_exists in Hlines as (r & Hr & Hnone).
    destruct (resolve_relation_in_output _ _ (Hpos r Hwf Hres Hr))
      as (ws & wp & wo & Hw & _). by rewrite Hw in Hnone.
Qed.

Lemma report_well_formed_witness :
  ∃ res lines,
    extract_sentence park_sentence = Some res ∧ report res = Some lines ∧
    lines.*1 = res_relations res ∧
    ∀ r w, (r, w) ∈ lines →
           resolve_relation (res_tokens res) r = Some w ∧
           res_tokens res !! Z.to_nat (rel_subj r) = Some w.1.1 ∧
           resolve_pred (res_tokens res) (rel_pred r) = Some w.1.2 ∧
           res_tokens res !! Z.to_nat (rel_obj r) = Some w.2.
Proof. apply (report_well_formed park_sentence). by_positions. Defined.

Example park_sentence_report :
  (extract_sentence park_sentence ≫= report) =
  Some [((1, [2; 3; 4; 5], 7), ("car", "parked-in-front-of", "lake"));
        ((1, [2; 3; 4; 5], 10), ("car", "parked-in-front-of", "park"))].
Proof. vm_compute. reflexivity. Qed.

(** X16.  A document of well-formed sentences is processed to the end:
    there is one result per sentence, in the order of the sentences, and
    the result at a position is the pipeline's result for the sentence at
    that position, with that sentence's words as tokens. *)
Theorem extract_document (ann : list Sentence) :
  Forall wf_sentence ann →
  ∃ results, extract ann = Some results ∧ length results = length ann ∧
    ∀ i s, ann !! i = Some s →
           ∃ res, results !! i = Some res ∧ extract_sentence s = Some res ∧
                  res_tokens res = word <$> token s.
Proof.
  intros Hann. destruct (extract_wf ann Hann) as [results Hres].
  exists results. split; [done|]. unfold extract in Hres. apply mapM_Some in Hres.
  split; [symmetry; by eapply Forall2_length|].
  intros i s Hs. destruct (Forall2_lookup_l _ _ _ _ _ Hres Hs) as (res & Hi & Hsent).
  exists res. split; [done|]. split; [done|].
  unfold extract_sentence in Hsent.
  destruct (_extract_by_nmod s); [|done]. by injection Hsent as <-.
Qed.

Lemma extract_document_witness :
  ∃ results, extract [cat_sentence; park_sentence] = Some results ∧
    length results = length [cat_sentence; park_sentence] ∧
    ∀ i s, [cat_sentence; park_sentence] !! i = Some s →
           ∃ res, results !! i = Some res ∧ extract_sentence s = Some res ∧
                  res_tokens res = word <$> token s.
Proof.
  apply (extract_document [cat_sentence; park_sentence]).
  constructor; [by_positions|]. constructor; [by_positions|]. constructor.
Defined.

(** X17.  The search for the preposition stops at the first case token
    whose word is the label: the tokens before it have been looked up and
    did not match, and the tokens after it are not looked at, whatever
    they are. *)
Theorem find_pred_first_match (dep_idx : gmap string (gmap Z (list Z)))
    (tokens : list Token) (X : string) (before after : list Z) (c : Z)
    (cw : list Z * string) :
  (∀ c', c' ∈ before →
         ∃ cw', case_word dep_idx tokens c' = Some cw' ∧ cw'.2 ≠ X) →
  case_word dep_idx tokens c = Some cw → cw.2 = X →
  find_pred dep_idx tokens X (before ++ c :: after) = Some (Some cw.1).
Proof.
  intros Hbefore Hcw HX. induction before as [|c' before IH]; simpl.
  - rewrite Hcw. simpl. by rewrite decide_True.
  - destruct (Hbefore c') as (cw' & -> & Hne); [left|]. simpl.
    rewrite decide_False by done. apply IH. intros c'' Hc''. apply Hbefore. by right.
Qed.

Lemma find_pred_first_match_witness :
  find_pred (build_dep_idx (edges park_sentence)) (token park_sentence)
            "in_front_of" ([2] ++ 4 :: [99]) = Some (Some [4; 5; 6]).
Proof.
  apply (find_pred_first_match (build_dep_idx (edges park_sentence))
           (token park_sentence) "in_front_of" [2] [99] 4 ([4; 5; 6], "in_front_of")).
  - intros c' ->%list_elem_of_singleton. eexists. split; [vm_compute; reflexivity|].
    discriminate.
  - vm_compute. reflexivity.
  - reflexivity.
Defined.
